(** * FlowmailerClient: credential cache, single-flight refresh, resilient send

    A shallow embedding of [src/index.js], which holds two variants of the
    same class: one on [fetch] (lines 1-186) and one on [axios] (lines
    187-391); a [transport] tells them apart where they differ.  Numbers
    are the integers the code computes with ([Z]), strings are [string]
    (one character per UTF-16 code unit), the client
    object is a record, and every [await] is a point where the world -- the
    client, the clock, the requests on the wire -- is handed over and taken
    back. *)

From Stdlib Require Import ZArith List String Bool Lia Arith Sorted Permutation.
Import ListNotations.
Local Open Scope Z_scope.

(** ** Configuration and construction *)

Inductive transport := FetchTransport | AxiosTransport.

(** The options the constructor keeps on [this] (lines 14-16, 203-205). *)
Record config := mkConfig {
  graceMs : Z;
  timeoutMs : Z;
  maxRetries : Z
}.

Record options := mkOptions {
  opt_graceMs : option Z;
  opt_timeoutMs : option Z;
  opt_maxRetries : option Z
}.

(** [opts.x ?? d] *)
Definition nullish {A} (o : option A) (d : A) : A :=
  match o with Some a => a | None => d end.

Definition configure (opts : options) : config :=
  {| graceMs := nullish (opt_graceMs opts) 5000;
     timeoutMs := nullish (opt_timeoutMs opts) 15000;
     maxRetries := nullish (opt_maxRetries opts) 2 |}.

(** ** Errors and completions *)

(** How a [fetch] or [axios] promise rejects: the timer of
    [_fetchWithTimeout] (or axios' [timeout]) fired first, or the
    connection failed.  Which of the two happens, and when, is the
    environment's choice. *)
Inductive failure := Aborted | NetworkError.

(** Every [new Error(...)] of the source, with the values its template
    literal interpolates. *)
Inductive error :=
| ConfigError
| ValidationError (msg : string)
| TokenFetchError (status : Z) (statusText : string)
| TokenFieldsError
| JsonError
| TransportError (f : failure)
| SendEmailError (status : Z) (statusText : string) (excerpt : string).

(** How an [async] function completes.  [OutOfFuel] belongs to the model
    only: it is what a loop run with too little fuel gives. *)
Inductive completion (A : Type) :=
| Return (a : A)
| Throw (e : error)
| OutOfFuel.
Arguments Return {A} a.
Arguments Throw {A} e.
Arguments OutOfFuel {A}.

(** ** The client object *)

(** [_inflightRefresh] holds a promise or [null]; a promise is named by the
    number of the token request it waits for.  [authorization] is the
    default [Authorization] header of the axios instance (line 273), unset
    in the fetch variant. *)
Record client := mkClient {
  _token : string;
  _expiresAt : Z;
  _inflightRefresh : option nat;
  authorization : option string
}.

Record credentials := mkCredentials {
  accountId : string;
  clientId : string;
  clientSecret : string
}.

Definition falsy (s : string) : bool := (s =? "")%string.

(** Lines 22-24 and 211-213. *)
Definition fresh_client : client :=
  {| _token := ""; _expiresAt := 0; _inflightRefresh := None; authorization := None |}.

(** Lines 2-25: fail fast on a missing identity, else start empty. *)
Definition constructor (cfg : credentials) : completion client :=
  if falsy (accountId cfg) || falsy (clientId cfg) || falsy (clientSecret cfg)
  then Throw ConfigError
  else Return fresh_client.

(** Lines 27-33. *)
Definition _mustRenew (cfg : config) (c : client) (now : Z) : bool :=
  falsy (_token c) || (_expiresAt c =? 0) || (_expiresAt c <=? now + graceMs cfg).

(** ** The authorization endpoint *)

(** The two fields [_updateAccessToken] reads, at the types of the
    interface: a string and a number of seconds; [None] is an absent or
    null field. *)
Record tokenBody := mkTokenBody {
  access_token : option string;
  expires_in : option Z
}.

Inductive jsonBody := Malformed | Parsed (b : tokenBody).

Record tokenResponse := mkTokenResponse {
  t_status : Z;
  t_statusText : string;
  t_body : jsonBody
}.

Inductive net (A : Type) := Arrived (a : A) | Failed (f : failure).
Arguments Arrived {A} a.
Arguments Failed {A} f.

(** [resp.ok] of the Fetch standard. *)
Definition ok (status : Z) : bool := (200 <=? status) && (status <=? 299).

(** Line 62 ([!resp.ok]) and line 259 ([status < 200 || status >= 300]). *)
Definition tokenRejected (v : transport) (status : Z) : bool :=
  match v with
  | FetchTransport => negb (ok status)
  | AxiosTransport => (status <? 200) || (300 <=? status)
  end.

(** Lines 66-69 and 265-268: [!access_token || !expires_in]. *)
Definition usable (b : tokenBody) : option (string * Z) :=
  match access_token b, expires_in b with
  | Some a, Some e => if falsy a || (e =? 0) then None else Some (a, e)
  | _, _ => None
  end.

(** Lines 71-73 and 270-274: both fields are written in one synchronous
    stretch. *)
Definition store (v : transport) (c : client) (now : Z) (a : string) (e : Z) : client :=
  {| _token := a;
     _expiresAt := now + e * 1000;
     _inflightRefresh := _inflightRefresh c;
     authorization := match v with
                      | FetchTransport => authorization c
                      | AxiosTransport => Some a
                      end |}.

(** [_updateAccessToken] from the moment its request settles (lines 62-73,
    259-274); [now] is what [Date.now()] gives then.  A body that is not
    JSON makes [resp.json()] reject in the fetch variant; axios hands the
    raw text over, whose fields are undefined.  The fetch variant suspends
    once more between the status and the fields ([await resp.json()]);
    the marker stays set meanwhile and the client is not written, so the
    two stretches are taken as one. *)
Definition _updateAccessToken (v : transport) (c : client) (now : Z)
  (o : net tokenResponse) : client * completion string :=
  match o with
  | Failed f => (c, Throw (TransportError f))
  | Arrived r =>
      if tokenRejected v (t_status r)
      then (c, Throw (TokenFetchError (t_status r) (t_statusText r)))
      else match t_body r with
           | Malformed =>
               (c, Throw match v with
                         | FetchTransport => JsonError
                         | AxiosTransport => TokenFieldsError
                         end)
           | Parsed b =>
               match usable b with
               | None => (c, Throw TokenFieldsError)
               | Some (a, e) =>
                   let c' := store v c now a e in
                   (c', Return (_token c'))
               end
           end
  end.

(** ** The world around the client *)

Definition caller := nat.

Inductive endpoint := Submit | Account.

Inductive jsdata := DataString (s : string) | DataJson (stringified : string) | DataNullish.

(** An API response: [text] is what [resp.text()] resolves to ([None] when
    it rejects), [data] is axios' [resp.data]. *)
Record response := mkResponse {
  status : Z;
  statusText : string;
  text : option string;
  data : jsdata
}.

(** What an observer of one process sees, in order. *)
Inductive obs :=
| TokenRequest (id : nat)
| Cleared
| Resumed (c : caller) (r : completion string)
| Attempt (ep : endpoint) (bearer : string)
| Response (r : response)
| Sleep (ms : Z).

(** [pending] are the token requests on the wire, [waiters] the callers
    suspended on a refresh promise, [issued] and [attempts] count the
    requests sent so far to the two endpoints. *)
Record world := mkWorld {
  cl : client;
  now : Z;
  pending : list nat;
  waiters : list (caller * nat);
  issued : nat;
  attempts : nat;
  log : list obs
}.

Definition emit (o : list obs) (w : world) : world :=
  mkWorld (cl w) (now w) (pending w) (waiters w) (issued w) (attempts w) (log w ++ o).

Definition elapse (d : Z) (w : world) : world :=
  mkWorld (cl w) (now w + d) (pending w) (waiters w) (issued w) (attempts w) (log w).

Definition set_inflight (p : option nat) (c : client) : client :=
  mkClient (_token c) (_expiresAt c) p (authorization c).

(** The synchronous head of [_updateAccessToken] (lines 46-60): the
    request leaves, and the promise chained with [finally] is stored.
    Nothing is awaited before [fetch] (or [axios.post]) is called, so no
    other caller runs in between. *)
Definition launch (w : world) : world * nat :=
  let id := issued w in
  (mkWorld (set_inflight (Some id) (cl w)) (now w) (pending w ++ [id])
           (waiters w) (S id) (attempts w) (log w ++ [TokenRequest id]), id).

Definition attach (c : caller) (id : nat) (w : world) : world :=
  mkWorld (cl w) (now w) (pending w) (waiters w ++ [(c, id)])
          (issued w) (attempts w) (log w).

(** Lines 76-83, up to the returned promise. *)
Definition forceRefresh_call (c : caller) (w : world) : world * nat :=
  match _inflightRefresh (cl w) with
  | Some id => (attach c id w, id)
  | None => let '(w1, id) := launch w in (attach c id w1, id)
  end.

(** What an [async] call hands back before anything is awaited. *)
Inductive promised := Ready (tok : string) | Awaiting (id : nat).

(** Lines 85-90. *)
Definition getAccessToken_call (cfg : config) (c : caller) (w : world)
  : world * promised :=
  if _mustRenew cfg (cl w) (now w)
  then let '(w1, id) := forceRefresh_call c w in (w1, Awaiting id)
  else (emit [Resumed c (Return (_token (cl w)))] w, Ready (_token (cl w))).

Definition waits_on (id : nat) (x : caller * nat) : bool := Nat.eqb (snd x) id.

Definition remove_id (id : nat) (l : list nat) : list nat :=
  filter (fun j => negb (Nat.eqb j id)) l.

(** Token request [id] settles with [o]: the rest of [_updateAccessToken]
    runs, then the [finally] callback (lines 78-80), then the callers that
    await the promise, in the order they attached. *)
Definition settle (v : transport) (id : nat) (o : net tokenResponse) (w : world)
  : world * completion string :=
  let '(c1, r) := _updateAccessToken v (cl w) (now w) o in
  let c2 := set_inflight None c1 in
  let mine := filter (waits_on id) (waiters w) in
  let others := filter (fun x => negb (waits_on id x)) (waiters w) in
  (mkWorld c2 (now w) (remove_id id (pending w)) others (issued w) (attempts w)
           (log w ++ Cleared :: map (fun x => Resumed (fst x) r) mine), r).

(** ** Interleavings *)

Inductive event :=
| CallForceRefresh (c : caller)
| CallGetAccessToken (c : caller)
| Settle (id : nat) (o : net tokenResponse)
| Elapse (d : Z).

Definition is_pending (id : nat) (w : world) : bool :=
  existsb (Nat.eqb id) (pending w).

Definition step (v : transport) (cfg : config) (w : world) (ev : event) : world :=
  match ev with
  | CallForceRefresh c => fst (forceRefresh_call c w)
  | CallGetAccessToken c => fst (getAccessToken_call cfg c w)
  | Settle id o => if is_pending id w then fst (settle v id o w) else w
  | Elapse d => elapse d w
  end.

Definition run (v : transport) (cfg : config) (w : world) (evs : list event) : world :=
  fold_left (step v cfg) evs w.

Definition boot (c : client) (t0 : Z) : world :=
  mkWorld c t0 [] [] 0%nat 0%nat [].

(** ** One logical call, run to its end

    A call is followed from its first line to its completion; at each
    [await] the environment answers the request that is waited for, and no
    other caller is scheduled in between. *)

(** The servers: what the [k]-th token request and the [k]-th API request
    come back with, and how long each takes. *)
Record env := mkEnv {
  authReply : nat -> net tokenResponse;
  authTook : nat -> Z;
  apiReply : nat -> endpoint -> string -> net response;
  apiTook : nat -> Z
}.

Record sender := mkSender { email : string; name : string }.

(** The arguments of [sendEmail] that its control flow reads; the rest
    ([flowSelector], [data], [attachments], [text]) only shapes the body. *)
Record mail := mkMail {
  toMail : string;
  subject : string;
  from : option sender
}.

Definition M (A : Type) : Type := world -> world * completion A.

Definition ret {A} (a : A) : M A := fun w => (w, Return a).

Definition throw {A} (e : error) : M A := fun w => (w, Throw e).

Definition bind {A B} (m : M A) (k : A -> M B) : M B := fun w =>
  match m w with
  | (w1, Return a) => k a w1
  | (w1, Throw e) => (w1, Throw e)
  | (w1, OutOfFuel) => (w1, OutOfFuel)
  end.

Declare Scope await_scope.
Delimit Scope await_scope with await.
Notation "x <- m ;; k" := (bind m (fun x => k))
  (at level 61, m at next level, right associativity) : await_scope.
Notation "m ;; k" := (bind m (fun _ => k))
  (at level 61, right associativity) : await_scope.
Local Open Scope await_scope.

(** Lines 100-108 and 333-336. *)
Definition validate (m : mail) : M unit :=
  if falsy (toMail m) then throw (ValidationError "toMail required")
  else if falsy (subject m) then throw (ValidationError "subject required")
  else match from m with
       | Some s =>
           if falsy (email s) || falsy (name s)
           then throw (ValidationError "Missing from.email or from.name")
           else ret tt
       | None => throw (ValidationError "Missing from.email or from.name")
       end.

(** Line 150 and line 365. *)
Definition transient (s : Z) : bool := (s =? 429) || (500 <=? s).

(** [body.slice(0, 300)] *)
Definition slice300 (body : string) : string := substring 0 300 body.

Section Call.

Variable v : transport.
Variable cfg : config.
Variable net_env : env.
Variable self : caller.

(** [await] on the refresh promise [id]: the server answers, the promise
    settles, this caller goes on with its outcome. *)
Definition awaitRefresh (id : nat) : M string := fun w =>
  settle v id (authReply net_env id) (elapse (authTook net_env id) w).

Definition forceRefresh : M string := fun w =>
  let '(w1, id) := forceRefresh_call self w in awaitRefresh id w1.

Definition getAccessToken : M string := fun w =>
  match getAccessToken_call cfg self w with
  | (w1, Ready tok) => (w1, Return tok)
  | (w1, Awaiting id) => awaitRefresh id w1
  end.

(** One HTTP request to the API ([_fetchWithTimeout], [this.http.post]). *)
Definition request (ep : endpoint) (bearer : string) : M response := fun w =>
  let k := attempts w in
  let w1 := mkWorld (cl w) (now w + apiTook net_env k) (pending w) (waiters w)
                    (issued w) (S k) (log w ++ [Attempt ep bearer]) in
  match apiReply net_env k ep bearer with
  | Arrived r => (emit [Response r] w1, Return r)
  | Failed f => (w1, Throw (TransportError f))
  end.

(** [await new Promise((r) => setTimeout(r, backoff))] *)
Definition sleep (ms : Z) : M unit := fun w =>
  (emit [Sleep ms] (elapse ms w), Return tt).

(** The [while] of lines 148-157 and 363-372, for a loop condition [guard]
    and an [attempt]. *)
Fixpoint retryLoop (guard : response -> Z -> bool) (attempt : M response)
  (fuel : nat) (retries : Z) (resp : response) : M response :=
  if guard resp retries then
    match fuel with
    | O => fun w => (w, OutOfFuel)
    | S fuel' =>
        sleep (200 * 2 ^ retries);;
        resp' <- attempt;;
        retryLoop guard attempt fuel' (retries + 1) resp'
    end
  else ret resp.

End Call.

Section Fetch.

Variable cfg : config.
Variable net_env : env.
Variable self : caller.

Let getToken := getAccessToken FetchTransport cfg net_env self.
Let refresh := forceRefresh FetchTransport net_env self.

(** Lines 110-136. *)
Definition attempt (bearerToken : string) : M response :=
  request net_env Submit bearerToken.

(** Lines 149-151. *)
Definition guard (resp : response) (retries : Z) : bool :=
  negb (ok (status resp)) && transient (status resp) && (retries <? maxRetries cfg).

(** Lines 141-145. *)
Definition reauth (token : string) (resp : response) : M (string * response) :=
  if status resp =? 401 then
    refresh;;
    token' <- getToken;;
    resp' <- attempt token';;
    ret (token', resp')
  else ret (token, resp).

(** Lines 159-168. *)
Definition conclude (resp : response) : M bool :=
  if negb (ok (status resp)) then
    let body := nullish (text resp) ""%string in
    throw (SendEmailError (status resp) (statusText resp) (slice300 body))
  else ret true.

(** Lines 147-168. *)
Definition backoff (token : string) (resp : response) : M bool :=
  resp' <- retryLoop guard (attempt token)
             (Z.to_nat (maxRetries cfg)) 0 resp;;
  conclude resp'.

(** Lines 92-169. *)
Definition sendEmail (m : mail) : M bool :=
  validate m;;
  token <- getToken;;
  resp <- attempt token;;
  tr <- reauth token resp;;
  backoff (fst tr) (snd tr).

(** Lines 171-185. *)
Definition ping : M bool :=
  token <- getToken;;
  resp <- request net_env Account token;;
  ret (ok (status resp)).

End Fetch.

Module Axios.
Section Axios.

Variable cfg : config.
Variable net_env : env.
Variable self : caller.

Let getToken := getAccessToken AxiosTransport cfg net_env self.
Let refresh := forceRefresh AxiosTransport net_env self.

(** Lines 350-353: the bearer is the instance's default header. *)
Definition attempt : M response := fun w =>
  request net_env Submit (nullish (authorization (cl w)) ""%string) w.

(** Lines 364-366. *)
Definition guard (resp : response) (retries : Z) : bool :=
  negb (status resp =? 202) && transient (status resp) && (retries <? maxRetries cfg).

(** Lines 357-360. *)
Definition reauth (resp : response) : M response :=
  if status resp =? 401 then refresh;; attempt else ret resp.

(** Lines 374-387. *)
Definition conclude (resp : response) : M bool :=
  if (status resp <? 200) || (300 <=? status resp) then
    let body := match data resp with
                | DataString s => s
                | DataJson j => j
                | DataNullish => "{}"%string
                end in
    throw (SendEmailError (status resp) (statusText resp) (slice300 body))
  else ret true.

(** Lines 362-387. *)
Definition backoff (resp : response) : M bool :=
  resp' <- retryLoop guard attempt (Z.to_nat (maxRetries cfg)) 0 resp;;
  conclude resp'.

(** Lines 324-388. *)
Definition sendEmail (m : mail) : M bool :=
  validate m;;
  getToken;;
  resp <- attempt;;
  resp' <- reauth resp;;
  backoff resp'.

End Axios.
End Axios.

(** ** The request body *)

Module Payload.
Section Payload.

(** What the caller hands over as [data] and as the items of
    [attachments]; [empty_object] is the default [{}]. *)
Variable J : Type.
Variable empty_object : J.

Inductive value := Undefined | Str (s : string) | Obj (d : J) | Arr (l : list J).

(** A JS object with string keys: its properties, in insertion order. *)
Definition object : Type := list (string * value).

Fixpoint get (k : string) (o : object) : option value :=
  match o with
  | [] => None
  | (k', x) :: o' => if (k =? k')%string then Some x else get k o'
  end.

(** [o[k] = x]: an own property keeps its place, a new one goes last. *)
Fixpoint set (k : string) (x : value) (o : object) : object :=
  match o with
  | [] => [(k, x)]
  | (k', x') :: o' =>
      if (k =? k')%string then (k, x) :: o' else (k', x') :: set k x o'
  end.

(** The argument of [sendEmail], as the caller wrote it: an omitted
    property is [None]. *)
Record arguments := mkArguments {
  envelope : mail;
  flowSelector : option string;
  data : option J;
  attachments : option (list J);
  text : option string
}.

Definition optional (s : option string) : value :=
  match s with Some x => Str x | None => Undefined end.

(** Lines 293-322.  [from.email] on a missing [from] is a [TypeError]:
    [None]. *)
Definition _buildPayload (toMail subject : string) (flowSelector : option string)
  (data : J) (from : option sender) (attachments : list J) (text : string)
  : option object :=
  match from with
  | None => None
  | Some f =>
      let payload :=
        [("headerFromAddress"%string, Str (email f));
         ("headerFromName"%string, Str (name f));
         ("messageType"%string, Str "EMAIL");
         ("recipientAddress"%string, Str toMail);
         ("senderAddress"%string, Str (email f));
         ("subject"%string, Str subject)] in
      let payload :=
        if falsy text
        then set "data" (Obj data) (set "flowSelector" (optional flowSelector) payload)
        else set "text" (Str text) payload in
      Some match attachments with
           | [] => payload
           | _ :: _ => set "attachments" (Arr attachments) payload
           end
  end.

(** Lines 324-348: the defaults of the destructuring, then the payload. *)
Definition payload (a : arguments) : option object :=
  _buildPayload (toMail (envelope a)) (subject (envelope a)) (flowSelector a)
    (nullish (data a) empty_object) (from (envelope a))
    (nullish (attachments a) []) (nullish (text a) ""%string).

(** Lines 92-99 and 122-132: the object the fetch variant serializes; it
    has no [text]. *)
Definition body (a : arguments) : option object :=
  match from (envelope a) with
  | None => None
  | Some f =>
      Some [("headerFromAddress"%string, Str (email f));
            ("headerFromName"%string, Str (name f));
            ("messageType"%string, Str "EMAIL");
            ("recipientAddress"%string, Str (toMail (envelope a)));
            ("senderAddress"%string, Str (email f));
            ("flowSelector"%string, optional (flowSelector a));
            ("subject"%string, Str (subject (envelope a)));
            ("data"%string, Obj (nullish (data a) empty_object));
            ("attachments"%string, Arr (nullish (attachments a) []))]
  end.

End Payload.

Arguments Undefined {J}.
Arguments Str {J} s.
Arguments Obj {J} d.
Arguments Arr {J} l.
Arguments get {J} k o.
Arguments set {J} k x o.
Arguments mkArguments {J}.
Arguments envelope {J} a.
Arguments flowSelector {J} a.
Arguments data {J} a.
Arguments attachments {J} a.
Arguments text {J} a.
Arguments optional {J} s.
Arguments _buildPayload {J}.
Arguments payload {J}.
Arguments body {J}.

End Payload.

(** ** Vocabulary of the statements *)

(** The marker and the wire agree: no marker, nothing on the wire and
    nobody waiting; a marker, exactly its request on the wire and every
    waiter suspended on it. *)
Definition coherent (w : world) : Prop :=
  match _inflightRefresh (cl w) with
  | None => pending w = [] /\ waiters w = []
  | Some id => pending w = [id] /\ Forall (fun x => snd x = id) (waiters w)
  end.

Inductive call := Get (c : caller) | Force (c : caller).

Definition who (k : call) : caller :=
  match k with Get c => c | Force c => c end.





(** Clocks that do not run backwards and lifetimes that are not negative. *)
Definition plausible (ev : event) : bool :=
  match ev with
  | Elapse d => 0 <=? d
  | Settle _ (Arrived r) =>
      match t_body r with
      | Parsed b => match expires_in b with Some e => 0 <=? e | None => true end
      | Malformed => true
      end
  | _ => true
  end.

Fixpoint sleeps (l : list obs) : list Z :=
  match l with
  | [] => []
  | Sleep ms :: l' => ms :: sleeps l'
  | _ :: l' => sleeps l'
  end.

Fixpoint responses (l : list obs) : list response :=
  match l with
  | [] => []
  | Response r :: l' => r :: responses l'
  | _ :: l' => responses l'
  end.

Fixpoint token_requests (l : list obs) : list nat :=
  match l with
  | [] => []
  | TokenRequest id :: l' => id :: token_requests l'
  | _ :: l' => token_requests l'
  end.

Definition succeeded {A} (r : completion A) : bool :=
  match r with Return _ => true | _ => false end.

(** Invariants of the pair: an empty token has no expiry; under plausible
    events a held token has a positive one. *)
Definition paired (w : world) : Prop :=
  _token (cl w) = ""%string -> _expiresAt (cl w) = 0.

Definition dated (w : world) : Prop :=
  0 <= now w /\ (_token (cl w) <> ""%string -> 0 < _expiresAt (cl w)).

(** The backoff delays of [n] retries that start at retry number [k]. *)
Definition delays (k : Z) (n : nat) : list Z :=
  map (fun i => 200 * 2 ^ (k + Z.of_nat i)) (seq 0 n).

(** [sendEmail] up to the response of its first attempt (lines 92-139 and
    324-355). *)
Definition first_attempt (cfg : config) (e : env) (c : caller) (m : mail)
  : M (string * response) :=
  bind (validate m) (fun _ =>
  bind (getAccessToken FetchTransport cfg e c) (fun token =>
  bind (attempt e token) (fun resp => ret (token, resp)))).

Definition axios_first_attempt (cfg : config) (e : env) (c : caller) (m : mail)
  : M response :=
  bind (validate m) (fun _ =>
  bind (getAccessToken AxiosTransport cfg e c) (fun _ => Axios.attempt e)).


(** The text from which the axios variant takes its excerpt (lines
    376-379). *)
Definition axios_body (r : response) : string :=
  match data r with
  | DataString s => s
  | DataJson j => j
  | DataNullish => "{}"%string
  end.

(** [m] run from [w] does not run out of fuel, and if it returns, [Q]
    holds of the world it leaves and of what it returns. *)
Definition post {A} (m : M A) (w : world) (Q : world -> A -> Prop) : Prop :=
  match m w with
  | (w', Return a) => Q w' a
  | (_, Throw _) => True
  | (_, OutOfFuel) => False
  end.

(** What a run of the loop leaves behind, for a loop condition that asks
    for a transient status and an unspent budget, and attempts that carry
    the bearer [b]. *)
Record loop_run (cfg : config) (k : Z) (r0 : response) (w w' : world)
  (res : completion response) (seg : list obs) : Prop := {
  run_log : log w' = log w ++ seg;
  run_cl : cl w' = cl w;
  run_issued : issued w' = issued w;
  run_pending : pending w' = pending w;
  run_waiters : waiters w' = waiters w;
  run_attempts : attempts w' = (attempts w + List.length (sleeps seg))%nat;
  run_delays : sleeps seg = delays k (List.length (sleeps seg));
  run_quiet : token_requests seg = [];
  run_idle : sleeps seg = [] -> seg = [];
  run_budget : Z.of_nat (List.length (sleeps seg)) <= Z.max 0 (maxRetries cfg - k);
  run_warranted : forall i r, (i < List.length (sleeps seg))%nat ->
      nth_error (r0 :: responses seg) i = Some r -> transient (status r) = true;
  run_end : match res with
            | Return r =>
                nth_error (r0 :: responses seg) (List.length (sleeps seg)) = Some r
                /\ List.length (responses seg) = List.length (sleeps seg)
                /\ last (Response r0 :: seg) Cleared = Response r
                /\ (transient (status r) = true ->
                    maxRetries cfg <= k + Z.of_nat (List.length (sleeps seg)))
            | Throw err =>
                (exists f, err = TransportError f)
                /\ S (List.length (responses seg)) = List.length (sleeps seg)
            | OutOfFuel => False
            end
}.

(** [m] never sleeps; [m] sleeps as the backoff schedule says. *)
Definition sleepless {A} (m : M A) : Prop :=
  forall w, sleeps (log (fst (m w))) = sleeps (log w).

Definition backs_off {A} (cfg : config) (m : M A) : Prop :=
  forall w, exists n,
    sleeps (log (fst (m w))) = sleeps (log w) ++ delays 0 n
    /\ Z.of_nat n <= Z.max 0 (maxRetries cfg).

(** The three tests of lines 100-108. *)
Definition invalid (m : mail) : bool :=
  falsy (toMail m) || falsy (subject m) ||
  match from m with
  | Some s => falsy (email s) || falsy (name s)
  | None => true
  end.

(** The errors a call of [sendEmail] can end with. *)
Definition sendEmail_error (m : mail) (err : error) : Prop :=
  match err with
  | ConfigError => False
  | ValidationError _ => invalid m = true
  | SendEmailError s _ ex => ok s = false /\ (String.length ex <= 300)%nat
  | TokenFetchError s _ => ok s = false
  | TokenFieldsError | JsonError | TransportError _ => True
  end.

Definition raises {A} (m : M A) (E : error -> Prop) : Prop :=
  forall w err, snd (m w) = Throw err -> E err.

(** [m] sends at most [a] requests to the API and [t] to the token
    endpoint, and takes none back. *)
Definition within (a t : nat) {A} (m : M A) : Prop :=
  forall w,
    (attempts w <= attempts (fst (m w)) <= attempts w + a)%nat /\
    (issued w <= issued (fst (m w)) <= issued w + t)%nat.

Fixpoint bearers (l : list obs) : list string :=
  match l with
  | [] => []
  | Attempt _ b :: l' => b :: bearers l'
  | _ :: l' => bearers l'
  end.

(** From a world that satisfies [P], every request [m] sends to the API
    carries a bearer, and if [m] returns, [Q] holds of the world it leaves
    and of what it returns. *)
Definition authenticated {A} (P : world -> Prop) (m : M A) (Q : world -> A -> Prop)
  : Prop :=
  forall w, P w ->
    (exists seg, log (fst (m w)) = log w ++ seg /\
                 Forall (fun b => b <> ""%string) (bearers seg))
    /\ (forall a, snd (m w) = Return a -> Q (fst (m w)) a).

(** The header of the axios instance is the cached token. *)
Definition synced (w : world) : Prop :=
  nullish (authorization (cl w)) ""%string = _token (cl w).

Definition holds_token (w : world) : Prop :=
  synced w /\ _token (cl w) <> ""%string.



Definition total (l : list Z) : Z := fold_right Z.add 0 l.

(** No refresh is in flight and nobody waits for one. *)
Definition quiescent (w : world) : Prop :=
  _inflightRefresh (cl w) = None /\ pending w = [] /\ waiters w = [].

(** [m] keeps [I], however it ends. *)
Definition keeps {A} (I : world -> Prop) (m : M A) : Prop :=
  forall w, I w -> I (fst (m w)).

(** An outcome handed to a caller is an error or a token that is not
    empty. *)
Definition sound_outcome (o : obs) : Prop :=
  match o with
  | Resumed _ (Return tok) => tok <> ""%string
  | Resumed _ OutOfFuel => False
  | _ => True
  end.

(** ** Sample inputs *)

Definition default_config : config := configure (mkOptions None None None).

Definition granted (a : string) (e : Z) : net tokenResponse :=
  Arrived (mkTokenResponse 200 "OK" (Parsed (mkTokenBody (Some a) (Some e)))).

Definition denied (s : Z) : net tokenResponse :=
  Arrived (mkTokenResponse s "Service Unavailable" Malformed).

Definition replied (s : Z) : net response :=
  Arrived (mkResponse s "status text" (Some "body"%string) (DataString "body")).

(** An API that answers the [k]-th request with the [k]-th status of [l]
    (200 past its end), and a token endpoint that answers the [k]-th
    request with the [k]-th entry of [ts] (a one-hour token past its end);
    every exchange takes 10 ms. *)
Definition scripted (ts : list (net tokenResponse)) (l : list Z) : env :=
  {| authReply := fun k => nth k ts (granted "tok" 3600);
     authTook := fun _ => 10;
     apiReply := fun k _ _ => replied (nth k l 200);
     apiTook := fun _ => 10 |}.

Definition sample_mail : mail :=
  mkMail "to@example.org" "subject" (Some (mkSender "from@example.org" "From")).

(** A client that holds a token good for another hour. *)
Definition warm (t0 : Z) : world :=
  boot (mkClient "old" (t0 + 3600000) None (Some "old"%string)) t0.




(** A templated message with one attachment; [data] and the attachment
    stand as text. *)
Definition sample_arguments : Payload.arguments string :=
  Payload.mkArguments sample_mail (Some "flow"%string) (Some "{}"%string)
    (Some ["file"%string]) None.

(** * Properties *)

(** ** The credential cache *)

Lemma falsy_spec (s : string) : falsy s = true <-> s = ""%string.
Proof. unfold falsy. apply String.eqb_eq. Qed.

Lemma tokenRejected_ok (v : transport) (s : Z) : tokenRejected v s = negb (ok s).
Proof.
  destruct v; unfold tokenRejected, ok; [reflexivity|].
  destruct (Z.ltb_spec s 200), (Z.leb_spec 300 s), (Z.leb_spec 200 s),
    (Z.leb_spec s 299); simpl; try reflexivity; lia.
Qed.

Lemma mustRenew_spec (cfg : config) (c : client) (t : Z) :
  _mustRenew cfg c t = true <->
  _token c = ""%string \/ _expiresAt c = 0 \/ t + graceMs cfg >= _expiresAt c.
Proof.
  unfold _mustRenew. rewrite !orb_true_iff, falsy_spec, Z.eqb_eq, Z.leb_le.
  intuition lia.
Qed.


Lemma usable_Some (b : tokenBody) (a : string) (e : Z) :
  usable b = Some (a, e) ->
  access_token b = Some a /\ expires_in b = Some e /\ a <> ""%string /\ e <> 0.
Proof.
  unfold usable. destruct (access_token b) as [a'|]; [|discriminate].
  destruct (expires_in b) as [e'|]; [|discriminate].
  destruct (falsy a' || (e' =? 0)) eqn:E; [discriminate|].
  intros H; injection H as <- <-.
  apply orb_false_iff in E as [Ea Ee].
  repeat split; trivial.
  - intros ->. discriminate.
  - apply Z.eqb_neq, Ee.
Qed.

(** What one settlement does to the pair: nothing, or both fields at once
    from an accepted body. *)
Lemma updateAccessToken_cases (v : transport) (c : client) (t : Z) (o : net tokenResponse) :
  (exists e, _updateAccessToken v c t o = (c, Throw e)) \/
  (exists r b a e, o = Arrived r /\ ok (t_status r) = true /\ t_body r = Parsed b /\
     usable b = Some (a, e) /\
     _updateAccessToken v c t o = (store v c t a e, Return a)).
Proof.
  unfold _updateAccessToken.
  destruct o as [r|f]; [|left; eauto].
  rewrite tokenRejected_ok.
  destruct (ok (t_status r)) eqn:Hok; simpl; [|left; eauto].
  destruct (t_body r) as [|b] eqn:Hb; [left; eauto|].
  destruct (usable b) as [[a e]|] eqn:Hu; [|left; eauto].
  right. exists r, b, a, e. repeat split; trivial.
Qed.


Lemma token_requests_app (l1 l2 : list obs) :
  token_requests (l1 ++ l2) = token_requests l1 ++ token_requests l2.
Proof.
  induction l1 as [|x l1 IH]; [reflexivity|].
  destruct x; simpl; rewrite IH; reflexivity.
Qed.

(** C2.  [getAccessToken] answers from the cache, without a request to
    either endpoint, exactly when the credential is not stale; stale means
    an empty token, an expiry of zero, or [now + graceMs >= expiresAt]; a
    stale credential makes it behave as [forceRefresh]. *)
Theorem getAccessToken_staleness_rule
  (v : transport) (cfg : config) (e : env) (c : caller) (w : world) :
  let stale := _mustRenew cfg (cl w) (now w) in
  (stale = true <->
     _token (cl w) = ""%string \/ _expiresAt (cl w) = 0 \/
     now w + graceMs cfg >= _expiresAt (cl w))
  /\ (stale = false <-> exists tok, snd (getAccessToken_call cfg c w) = Ready tok)
  /\ (stale = false ->
        let w' := fst (getAccessToken v cfg e c w) in
        snd (getAccessToken v cfg e c w) = Return (_token (cl w))
        /\ cl w' = cl w /\ issued w' = issued w /\ attempts w' = attempts w
        /\ pending w' = pending w
        /\ token_requests (log w') = token_requests (log w))
  /\ (stale = true -> getAccessToken v cfg e c w = forceRefresh v e c w).
Proof.
  intros stale. split; [apply mustRenew_spec|].
  unfold getAccessToken, getAccessToken_call, forceRefresh. fold stale.
  destruct stale; repeat split; try discriminate; simpl.
  - intros [tok H]. destruct (forceRefresh_call c w). discriminate.
  - destruct (forceRefresh_call c w). reflexivity.
  - eauto.
  - rewrite token_requests_app. simpl. apply app_nil_r.
Qed.

Lemma getAccessToken_staleness_rule_witness :
  _mustRenew default_config (cl (warm 1000)) (now (warm 1000)) = false
  /\ snd (getAccessToken FetchTransport default_config (scripted [] []) 1%nat (warm 1000)) =
     Return "old"%string.
Proof.
  assert (H : _mustRenew default_config (cl (warm 1000)) (now (warm 1000)) = false)
    by reflexivity.
  split; [exact H|].
  exact (proj1 (proj1 (proj2 (proj2 (getAccessToken_staleness_rule FetchTransport
                                       default_config (scripted [] []) 1%nat (warm 1000))))
                  H)).
Defined.

(** *** The pair of token and expiry *)

Lemma step_pair (v : transport) (cfg : config) (w : world) (ev : event) :
  (_token (cl (step v cfg w ev)) = _token (cl w) /\
   _expiresAt (cl (step v cfg w ev)) = _expiresAt (cl w)) \/
  (exists id r b a e,
     ev = Settle id (Arrived r) /\ ok (t_status r) = true /\
     t_body r = Parsed b /\ usable b = Some (a, e) /\
     _token (cl (step v cfg w ev)) = a /\
     _expiresAt (cl (step v cfg w ev)) = now w + e * 1000).
Proof.
  destruct ev as [c|c|id o|d]; simpl.
  - left. unfold forceRefresh_call.
    destruct (_inflightRefresh (cl w)); simpl; auto.
  - left. unfold getAccessToken_call, forceRefresh_call.
    destruct (_mustRenew cfg (cl w) (now w)); [|simpl; auto].
    destruct (_inflightRefresh (cl w)); simpl; auto.
  - destruct (is_pending id w); [|auto].
    unfold settle.
    destruct (updateAccessToken_cases v (cl w) (now w) o)
      as [[e ->]|(r & b & a & e & -> & Hok & Hb & Hu & ->)]; simpl; [auto|].
    right. exists id, r, b, a, e. repeat split; trivial.
  - auto.
Qed.

Lemma step_now (v : transport) (cfg : config) (w : world) (ev : event) :
  plausible ev = true -> 0 <= now w -> 0 <= now (step v cfg w ev).
Proof.
  destruct ev as [c|c|id o|d]; simpl; intros Hp Hn.
  - unfold forceRefresh_call. destruct (_inflightRefresh (cl w)); simpl; auto.
  - unfold getAccessToken_call, forceRefresh_call.
    destruct (_mustRenew cfg (cl w) (now w)); [|simpl; auto].
    destruct (_inflightRefresh (cl w)); simpl; auto.
  - destruct (is_pending id w); [|auto]. unfold settle.
    destruct (_updateAccessToken v (cl w) (now w) o). simpl. auto.
  - apply Z.leb_le in Hp. lia.
Qed.

Lemma step_paired (v : transport) (cfg : config) (w : world) (ev : event) :
  paired w -> paired (step v cfg w ev).
Proof.
  unfold paired. intros H.
  destruct (step_pair v cfg w ev) as [[-> ->]|(id & r & b & a & e & _ & _ & _ & Hu & -> & _)];
    [exact H|].
  apply usable_Some in Hu as (_ & _ & Ha & _). intros ->. contradiction.
Qed.

Lemma step_dated (v : transport) (cfg : config) (w : world) (ev : event) :
  plausible ev = true -> dated w -> dated (step v cfg w ev).
Proof.
  unfold dated. intros Hp [Hn H]. split; [apply step_now; assumption|].
  destruct (step_pair v cfg w ev) as [[-> ->]|(id & r & b & a & e & -> & _ & Hb & Hu & _ & ->)];
    [exact H|].
  intros _. simpl in Hp. rewrite Hb in Hp.
  apply usable_Some in Hu as (_ & He & _ & Hne). rewrite He in Hp.
  apply Z.leb_le in Hp. lia.
Qed.

Lemma run_paired (v : transport) (cfg : config) (evs : list event) (w : world) :
  paired w -> paired (run v cfg w evs).
Proof.
  revert w. induction evs as [|ev evs IH]; intros w H; [exact H|].
  apply IH, step_paired, H.
Qed.

Lemma run_dated (v : transport) (cfg : config) (evs : list event) (w : world) :
  forallb plausible evs = true -> dated w -> dated (run v cfg w evs).
Proof.
  revert w. induction evs as [|ev evs IH]; intros w Hp H; [exact H|].
  simpl in Hp. apply andb_true_iff in Hp as [Hev Hp].
  apply IH; [exact Hp|]. apply step_dated; assumption.
Qed.

(** C8, as amended.  The pair starts as [("", 0)]; a step of the client
    leaves both fields alone or writes both from an accepted token
    response; in every reachable state an empty token goes with a zero
    expiry; and when the clock starts at a non-negative instant, never
    runs backwards and no accepted lifetime is negative, the token is
    non-empty exactly when the expiry is nonzero. *)
Theorem credential_pairing (v : transport) (cfg : config) :
  (forall cr c, constructor cr = Return c ->
     _token c = ""%string /\ _expiresAt c = 0)
  /\ (forall w ev,
        (_token (cl (step v cfg w ev)) = _token (cl w) /\
         _expiresAt (cl (step v cfg w ev)) = _expiresAt (cl w)) \/
        (exists id r b a e,
           ev = Settle id (Arrived r) /\ ok (t_status r) = true /\
           t_body r = Parsed b /\ usable b = Some (a, e) /\
           _token (cl (step v cfg w ev)) = a /\
           _expiresAt (cl (step v cfg w ev)) = now w + e * 1000))
  /\ (forall t0 evs,
        _token (cl (run v cfg (boot fresh_client t0) evs)) = ""%string ->
        _expiresAt (cl (run v cfg (boot fresh_client t0) evs)) = 0)
  /\ (forall t0 evs,
        0 <= t0 -> forallb plausible evs = true ->
        (_token (cl (run v cfg (boot fresh_client t0) evs)) <> ""%string <->
         _expiresAt (cl (run v cfg (boot fresh_client t0) evs)) <> 0)).
Proof.
  split; [|split; [|split]].
  - intros cr c. unfold constructor.
    destruct (falsy (accountId cr) || falsy (clientId cr) || falsy (clientSecret cr));
      [discriminate|].
    intros H; injection H as <-. split; reflexivity.
  - apply step_pair.
  - intros t0 evs. apply (run_paired v cfg evs (boot fresh_client t0)).
    intros _. reflexivity.
  - intros t0 evs Ht Hp.
    assert (Hd : dated (run v cfg (boot fresh_client t0) evs)).
    { apply run_dated; [exact Hp|]. split; [exact Ht|]. simpl. congruence. }
    assert (Hq : paired (run v cfg (boot fresh_client t0) evs)).
    { apply run_paired. intros _. reflexivity. }
    destruct Hd as [_ Hd]. unfold paired in Hq. split.
    + intros H. apply Hd in H. lia.
    + intros H Ht'. apply H, Hq, Ht'.
Qed.

Lemma credential_pairing_witness :
  0 <= 1000 /\
  forallb plausible [CallForceRefresh 1%nat; Elapse 30; Settle 0%nat (granted "abc" 3600)] = true /\
  (_token (cl (run FetchTransport default_config (boot fresh_client 1000)
                 [CallForceRefresh 1%nat; Elapse 30; Settle 0%nat (granted "abc" 3600)]))
     <> ""%string <->
   _expiresAt (cl (run FetchTransport default_config (boot fresh_client 1000)
                 [CallForceRefresh 1%nat; Elapse 30; Settle 0%nat (granted "abc" 3600)]))
     <> 0).
Proof.
  assert (H0 : 0 <= 1000) by lia.
  assert (H1 : forallb plausible
                 [CallForceRefresh 1%nat; Elapse 30; Settle 0%nat (granted "abc" 3600)] = true)
    by reflexivity.
  split; [exact H0|]. split; [exact H1|].
  exact (proj2 (proj2 (proj2 (credential_pairing FetchTransport default_config)))
           1000 _ H0 H1).
Defined.

(** C8 as stated fails: a token response whose lifetime is the negative of
    the clock is accepted (only a zero lifetime is refused) and leaves a
    non-empty token with an expiry of zero. *)
Lemma pairing_fails_on_negative_lifetime :
  ~ (forall (v : transport) (cfg : config) (t0 : Z) (evs : list event),
       _token (cl (run v cfg (boot fresh_client t0) evs)) <> ""%string <->
       _expiresAt (cl (run v cfg (boot fresh_client t0) evs)) <> 0).
Proof.
  intros H.
  specialize (H FetchTransport default_config 1762100000000
                [CallForceRefresh 1%nat; Settle 0%nat (granted "abc" (-1762100000))]).
  vm_compute in H. destruct H as [H _]. apply H; [discriminate|reflexivity].
Qed.

(** ** Single-flight refresh *)



Lemma filter_none {A} (f : A -> bool) (l : list A) :
  Forall (fun x => f x = false) l -> filter f l = [].
Proof.
  induction 1 as [|x l Hx _ IH]; simpl; [reflexivity|]. rewrite Hx. exact IH.
Qed.

Lemma filter_all {A} (f : A -> bool) (l : list A) :
  Forall (fun x => f x = true) l -> filter f l = l.
Proof.
  induction 1 as [|x l Hx _ IH]; simpl; [reflexivity|]. rewrite Hx, IH. reflexivity.
Qed.

(** The settlement of the request the marker names, from a coherent world. *)
Lemma settle_inflight (v : transport) (id : nat) (o : net tokenResponse) (w : world) :
  coherent w -> _inflightRefresh (cl w) = Some id ->
  let c1 := fst (_updateAccessToken v (cl w) (now w) o) in
  let r := snd (_updateAccessToken v (cl w) (now w) o) in
  settle v id o w =
  (mkWorld (set_inflight None c1) (now w) [] [] (issued w) (attempts w)
           (log w ++ Cleared :: map (fun x => Resumed (fst x) r) (waiters w)), r).
Proof.
  unfold coherent, settle. intros H E. rewrite E in H. destruct H as [Hp Hw].
  destruct (_updateAccessToken v (cl w) (now w) o) as [c1 r]. simpl.
  rewrite Hp. unfold remove_id. simpl. rewrite Nat.eqb_refl. simpl.
  rewrite (filter_all (waits_on id)), (filter_none (fun x => negb (waits_on id x)));
    [reflexivity| |].
  - eapply Forall_impl; [|exact Hw]. intros x Hx. unfold waits_on.
    rewrite Hx, Nat.eqb_refl. reflexivity.
  - eapply Forall_impl; [|exact Hw]. intros x Hx. unfold waits_on.
    rewrite Hx. apply Nat.eqb_refl.
Qed.












(** ** The backoff loop *)

Lemma substring_length_le (s : string) (m : nat) :
  (String.length (substring 0 m s) <= m)%nat.
Proof.
  revert m. induction s as [|a s IH]; intros [|m]; simpl; try lia.
  specialize (IH m). lia.
Qed.

Lemma slice300_length (s : string) : (String.length (slice300 s) <= 300)%nat.
Proof. apply substring_length_le. Qed.

Lemma delays_S (k : Z) (n : nat) :
  delays k (S n) = 200 * 2 ^ k :: delays (k + 1) n.
Proof.
  unfold delays. change (seq 0 (S n)) with (0%nat :: seq 1 n).
  rewrite <- seq_shift. cbn [map]. rewrite map_map.
  change (Z.of_nat 0) with 0. rewrite Z.add_0_r. f_equal.
  apply map_ext. intros i.
  rewrite Nat2Z.inj_succ. f_equal. f_equal. lia.
Qed.


Lemma retryLoop_unfold (g : response -> Z -> bool) (a : M response)
  (fuel : nat) (k : Z) (r : response) :
  retryLoop g a fuel k r =
  if g r k then
    match fuel with
    | O => fun w => (w, OutOfFuel)
    | S fuel' =>
        bind (sleep (200 * 2 ^ k))
             (fun _ => bind a (fun r' => retryLoop g a fuel' (k + 1) r'))
    end
  else ret r.
Proof. destruct fuel; reflexivity. Qed.

Section Loop.

Variable cfg : config.
Variable e : env.
Variable b : string.
Variable g : response -> Z -> bool.
Hypothesis g_spec :
  forall r k, g r k = transient (status r) && (k <? maxRetries cfg).

Lemma loop_stop (k : Z) (r0 : response) (w : world) :
  (transient (status r0) = true -> maxRetries cfg <= k) ->
  loop_run cfg k r0 w w (Return r0) [].
Proof.
  intros Hstop. constructor; simpl; rewrite ?app_nil_r; try reflexivity; try lia.
  rewrite Z.add_0_r. auto.
Qed.

Lemma retryLoop_run (fuel : nat) :
  forall k r0 w w' res,
    0 <= k -> (Z.to_nat (maxRetries cfg - k) <= fuel)%nat ->
    retryLoop g (request e Submit b) fuel k r0 w = (w', res) ->
    exists seg, loop_run cfg k r0 w w' res seg.
Proof.
  induction fuel as [|fuel IH]; intros k r0 w w' res Hk Hf H;
    rewrite retryLoop_unfold, g_spec in H;
    destruct (transient (status r0)) eqn:Ht;
    destruct (Z.ltb_spec k (maxRetries cfg)) as [Hlt|Hge];
    cbn [andb] in H;
    try (injection H as <- <-; exists []; apply loop_stop; intros; (lia || congruence)).
  - lia.
  - unfold bind at 1 in H. unfold sleep in H.
    unfold bind at 1 in H. unfold request in H. cbn [attempts emit elapse cl now pending waiters issued log] in H.
    destruct (apiReply e (attempts w) Submit b) as [r1|f].
    + match type of H with
      | retryLoop ?g ?a ?f ?k1 ?r ?w1 = _ =>
          destruct (retryLoop g a f k1 r w1) as [w2 res2] eqn:E
      end.
      apply IH in E as [seg' R]; [|lia|lia].
      injection H as <- <-.
      destruct R as [Rlog Rcl Ris Rpe Rwa Rat Rde Rqu Rid Rbu Rwar Rend].
      cbn [attempts emit elapse cl now pending waiters issued log] in *.
      exists (Sleep (200 * 2 ^ k) :: Attempt Submit b :: Response r1 :: seg').
      constructor; cbn [sleeps responses token_requests List.length];
        try assumption; try lia; try discriminate.
      * rewrite Rlog, <- !app_assoc. reflexivity.
      * rewrite delays_S. f_equal. exact Rde.
      * intros [|i] r Hi Hr; cbn [nth_error] in Hr.
        -- injection Hr as <-. exact Ht.
        -- apply (Rwar i r); [lia|exact Hr].
      * destruct res2 as [r|err|].
        -- destruct Rend as (Hn & Hl & Hlast & Hstop).
           repeat split; try assumption; try lia.
           intros Htr. specialize (Hstop Htr). lia.
        -- destruct Rend as [Hf' Hl]. split; [exact Hf'|lia].
        -- exact Rend.
    + injection H as <- <-.
      exists [Sleep (200 * 2 ^ k); Attempt Submit b].
      constructor; cbn [sleeps responses token_requests List.length attempts emit elapse cl now pending waiters issued log];
        try reflexivity; try lia; try discriminate.
      * rewrite <- app_assoc. reflexivity.
      * rewrite delays_S. reflexivity.
      * intros [|i] r Hi Hr; cbn [nth_error] in Hr; [injection Hr as <-; exact Ht|lia].
      * split; eauto.
Qed.

End Loop.

Lemma transient_not_ok (s : Z) : transient s = true -> ok s = false.
Proof.
  unfold transient, ok. intros H. apply orb_true_iff in H as [H|H].
  - apply Z.eqb_eq in H. subst. reflexivity.
  - apply Z.leb_le in H. apply andb_false_iff. right. apply Z.leb_gt. lia.
Qed.

Lemma guard_spec (cfg : config) (r : response) (k : Z) :
  guard cfg r k = transient (status r) && (k <? maxRetries cfg).
Proof.
  unfold guard. destruct (transient (status r)) eqn:E;
    [|rewrite andb_false_r; reflexivity].
  rewrite (transient_not_ok _ E). reflexivity.
Qed.

Lemma axios_guard_spec (cfg : config) (r : response) (k : Z) :
  Axios.guard cfg r k = transient (status r) && (k <? maxRetries cfg).
Proof.
  unfold Axios.guard. destruct (transient (status r)) eqn:E;
    [|rewrite andb_false_r; reflexivity].
  assert (H : (status r =? 202) = false).
  { apply Z.eqb_neq. intros H. rewrite H in E. discriminate. }
  rewrite H. reflexivity.
Qed.

Lemma fetch_loop (cfg : config) (e : env) (tok : string) (r0 : response) (w w' : world)
  (res : completion response) :
  retryLoop (guard cfg) (attempt e tok) (Z.to_nat (maxRetries cfg)) 0 r0 w = (w', res) ->
  exists seg, loop_run cfg 0 r0 w w' res seg.
Proof.
  apply (retryLoop_run cfg e tok (guard cfg) (guard_spec cfg)); [lia|].
  rewrite Z.sub_0_r. lia.
Qed.

Lemma sleeps_app (l1 l2 : list obs) : sleeps (l1 ++ l2) = sleeps l1 ++ sleeps l2.
Proof.
  induction l1 as [|x l1 IH]; [reflexivity|].
  destruct x; simpl; rewrite IH; reflexivity.
Qed.

Lemma sleepless_bind {A B} (m : M A) (f : A -> M B) :
  sleepless m -> (forall a, sleepless (f a)) -> sleepless (bind m f).
Proof.
  intros Hm Hf w. unfold bind. specialize (Hm w).
  destruct (m w) as [w1 [a|err|]]; cbn [fst] in *; [|exact Hm|exact Hm].
  rewrite (Hf a w1). exact Hm.
Qed.

Lemma backs_off_bind {A B} (cfg : config) (m : M A) (f : A -> M B) :
  sleepless m -> (forall a, backs_off cfg (f a)) -> backs_off cfg (bind m f).
Proof.
  intros Hm Hf w. unfold bind. specialize (Hm w).
  destruct (m w) as [w1 [a|err|]]; cbn [fst] in *.
  - destruct (Hf a w1) as (n & Hn & Hb). exists n. rewrite Hn, Hm. auto.
  - exists 0%nat. rewrite Hm. cbn. rewrite app_nil_r. split; [reflexivity|lia].
  - exists 0%nat. rewrite Hm. cbn. rewrite app_nil_r. split; [reflexivity|lia].
Qed.

Lemma sleepless_validate (m : mail) : sleepless (validate m).
Proof.
  intros w. unfold validate, throw, ret.
  destruct (falsy (toMail m)); [reflexivity|].
  destruct (falsy (subject m)); [reflexivity|].
  destruct (from m) as [s|]; [|reflexivity].
  destruct (falsy (email s) || falsy (name s)); reflexivity.
Qed.

Lemma sleepless_request (e : env) (ep : endpoint) (b : string) : sleepless (request e ep b).
Proof.
  intros w. unfold request.
  destruct (apiReply e (attempts w) ep b); cbn [fst emit log];
    rewrite !sleeps_app; cbn [sleeps]; rewrite ?app_nil_r; reflexivity.
Qed.

Lemma sleeps_resumed (r : completion string) (l : list (caller * nat)) :
  sleeps (map (fun x => Resumed (fst x) r) l) = [].
Proof. induction l as [|x l IH]; [reflexivity|exact IH]. Qed.

Lemma sleepless_awaitRefresh (v : transport) (e : env) (id : nat) :
  sleepless (awaitRefresh v e id).
Proof.
  intros w. unfold awaitRefresh, settle.
  destruct (_updateAccessToken v (cl (elapse (authTook e id) w))
              (now (elapse (authTook e id) w)) (authReply e id)) as [c1 r].
  cbn [fst log elapse]. rewrite sleeps_app. cbn [sleeps].
  rewrite sleeps_resumed. apply app_nil_r.
Qed.

Lemma sleepless_forceRefresh (v : transport) (e : env) (c : caller) :
  sleepless (forceRefresh v e c).
Proof.
  intros w. unfold forceRefresh, forceRefresh_call.
  destruct (_inflightRefresh (cl w)) as [id|]; cbn [launch].
  - rewrite sleepless_awaitRefresh. reflexivity.
  - rewrite sleepless_awaitRefresh. cbn [attach log].
    rewrite sleeps_app. apply app_nil_r.
Qed.

Lemma sleepless_getAccessToken (v : transport) (cfg : config) (e : env) (c : caller) :
  sleepless (getAccessToken v cfg e c).
Proof.
  intros w. destruct (_mustRenew cfg (cl w) (now w)) eqn:Hm.
  - unfold getAccessToken, getAccessToken_call. rewrite Hm.
    pose proof (sleepless_forceRefresh v e c w) as H. unfold forceRefresh in H.
    destruct (forceRefresh_call c w) as [w1 id]. exact H.
  - unfold getAccessToken, getAccessToken_call. rewrite Hm.
    cbn [fst emit log]. rewrite sleeps_app. apply app_nil_r.
Qed.

Lemma sleepless_reauth (cfg : config) (e : env) (c : caller) (tok : string) (r : response) :
  sleepless (reauth cfg e c tok r).
Proof.
  unfold reauth. cbv zeta. destruct (status r =? 401); [|intros w; reflexivity].
  apply sleepless_bind; [apply sleepless_forceRefresh|]. intros _.
  apply sleepless_bind; [apply sleepless_getAccessToken|]. intros tok'.
  apply sleepless_bind; [apply sleepless_request|]. intros r' w. reflexivity.
Qed.

Lemma backs_off_backoff (cfg : config) (e : env) (tok : string) (r0 : response) :
  backs_off cfg (backoff cfg e tok r0).
Proof.
  intros w. unfold backoff, bind.
  destruct (retryLoop (guard cfg) (attempt e tok) (Z.to_nat (maxRetries cfg)) 0 r0 w)
    as [w1 res1] eqn:E.
  apply fetch_loop in E as [seg R].
  destruct R as [Rlog Rcl Ris Rpe Rwa Rat Rde Rqu Rid Rbu Rwar Rend].
  rewrite Z.sub_0_r in Rbu.
  assert (H : exists n, sleeps (log w1) = sleeps (log w) ++ delays 0 n
                        /\ Z.of_nat n <= Z.max 0 (maxRetries cfg)).
  { exists (List.length (sleeps seg)). rewrite Rlog, sleeps_app, <- Rde. auto. }
  destruct res1 as [r1|err|]; cbn [fst]; try exact H.
  unfold conclude. destruct (negb (ok (status r1))); exact H.
Qed.

Lemma backs_off_sendEmail (cfg : config) (e : env) (c : caller) (m : mail) :
  backs_off cfg (sendEmail cfg e c m).
Proof.
  unfold sendEmail. cbv zeta.
  apply backs_off_bind; [apply sleepless_validate|]. intros _.
  apply backs_off_bind; [apply sleepless_getAccessToken|]. intros tok.
  apply backs_off_bind; [apply sleepless_request|]. intros r.
  apply backs_off_bind; [apply sleepless_reauth|]. intros tr.
  apply backs_off_backoff.
Qed.



Lemma bind_eq {A B} (m : M A) (f : A -> M B) (w w1 : world) (a : A) :
  m w = (w1, Return a) -> bind m f w = f a w1.
Proof. unfold bind. intros ->. reflexivity. Qed.

Lemma bind_throw {A B} (m : M A) (f : A -> M B) (w w1 : world) (err : error) :
  m w = (w1, Throw err) -> bind m f w = (w1, Throw err).
Proof. unfold bind. intros ->. reflexivity. Qed.

Lemma sendEmail_split (cfg : config) (e : env) (c : caller) (m : mail) (w : world) :
  sendEmail cfg e c m w =
  bind (first_attempt cfg e c m)
       (fun tr => bind (reauth cfg e c (fst tr) (snd tr))
                       (fun tr' => backoff cfg e (fst tr') (snd tr'))) w.
Proof.
  unfold sendEmail, first_attempt, bind.
  destruct (validate m w) as [w0 [[]|err|]]; try reflexivity.
  destruct (getAccessToken FetchTransport cfg e c w0) as [w1 [tok|err|]]; try reflexivity.
  destruct (attempt e tok w1) as [w2 [r|err|]]; reflexivity.
Qed.

Lemma axios_sendEmail_split (cfg : config) (e : env) (c : caller) (m : mail) (w : world) :
  Axios.sendEmail cfg e c m w =
  bind (axios_first_attempt cfg e c m)
       (fun r => bind (Axios.reauth e c r) (Axios.backoff cfg e)) w.
Proof.
  unfold Axios.sendEmail, axios_first_attempt, bind.
  destruct (validate m w) as [w0 [[]|err|]]; try reflexivity.
  destruct (getAccessToken AxiosTransport cfg e c w0) as [w1 [tok|err|]]; reflexivity.
Qed.

Lemma retryLoop_terminal (g : response -> Z -> bool) (a : M response)
  (fuel : nat) (k : Z) (r : response) (w : world) :
  g r k = false -> retryLoop g a fuel k r w = (w, Return r).
Proof. intros H. rewrite retryLoop_unfold, H. reflexivity. Qed.

Lemma unauthorized_not_transient (r : response) :
  status r = 401 -> transient (status r) = false /\ ok (status r) = false.
Proof. intros ->. split; reflexivity. Qed.

(** While a loop runs the client object is not touched, so the axios
    instance sends the same header on every retry. *)
Lemma axios_loop (e : env) (g : response -> Z -> bool) (fuel : nat) :
  forall k r w,
    retryLoop g (Axios.attempt e) fuel k r w =
    retryLoop g (request e Submit (nullish (authorization (cl w)) ""%string)) fuel k r w.
Proof.
  induction fuel as [|fuel IH]; intros k r w; rewrite !retryLoop_unfold;
    destruct (g r k); try reflexivity.
  unfold bind at 1 3. unfold sleep. unfold bind at 1 2.
  unfold Axios.attempt at 1. cbn [cl emit elapse].
  destruct (request e Submit (nullish (authorization (cl w)) ""%string)
              (emit [Sleep (200 * 2 ^ k)] (elapse (200 * 2 ^ k) w)))
    as [w1 [r1|err|]] eqn:E; try reflexivity.
  rewrite IH. f_equal. f_equal.
  unfold request in E. cbn [cl emit elapse attempts] in E.
  destruct (apiReply e (attempts w) Submit (nullish (authorization (cl w)) ""%string));
    [|discriminate].
  injection E as <- _. reflexivity.
Qed.

(** The lines after the reauthentication step never refresh. *)
Lemma backoff_never_refreshes (cfg : config) (e : env) (tok : string) (r : response)
  (w : world) :
  cl (fst (backoff cfg e tok r w)) = cl w
  /\ issued (fst (backoff cfg e tok r w)) = issued w
  /\ exists seg, log (fst (backoff cfg e tok r w)) = log w ++ seg /\ token_requests seg = [].
Proof.
  unfold backoff, bind.
  destruct (retryLoop (guard cfg) (attempt e tok) (Z.to_nat (maxRetries cfg)) 0 r w)
    as [w1 res1] eqn:E.
  apply fetch_loop in E as [seg R].
  destruct R as [Rlog Rcl Ris Rpe Rwa Rat Rde Rqu Rid Rbu Rwar Rend].
  assert (H : cl w1 = cl w /\ issued w1 = issued w /\
              exists seg, log w1 = log w ++ seg /\ token_requests seg = []) by eauto.
  destruct res1 as [r1|err|]; cbn [fst]; try exact H.
  unfold conclude. destruct (negb (ok (status r1))); exact H.
Qed.

Lemma axios_backoff_never_refreshes (cfg : config) (e : env) (r : response) (w : world) :
  cl (fst (Axios.backoff cfg e r w)) = cl w
  /\ issued (fst (Axios.backoff cfg e r w)) = issued w
  /\ exists seg, log (fst (Axios.backoff cfg e r w)) = log w ++ seg /\ token_requests seg = [].
Proof.
  unfold Axios.backoff, bind. rewrite axios_loop.
  destruct (retryLoop (Axios.guard cfg)
              (request e Submit (nullish (authorization (cl w)) ""%string))
              (Z.to_nat (maxRetries cfg)) 0 r w) as [w1 res1] eqn:E.
  apply (retryLoop_run cfg e _ _ (axios_guard_spec cfg)) in E as [seg R];
    [|lia|rewrite Z.sub_0_r; lia].
  destruct R as [Rlog Rcl Ris Rpe Rwa Rat Rde Rqu Rid Rbu Rwar Rend].
  assert (H : cl w1 = cl w /\ issued w1 = issued w /\
              exists seg, log w1 = log w ++ seg /\ token_requests seg = []) by eauto.
  destruct res1 as [r1|err|]; cbn [fst]; try exact H.
  unfold Axios.conclude. destruct ((status r1 <? 200) || (300 <=? status r1)); exact H.
Qed.

Lemma backoff_terminal (cfg : config) (e : env) (tok : string) (r : response) (w : world) :
  transient (status r) = false -> ok (status r) = false ->
  backoff cfg e tok r w =
  (w, Throw (SendEmailError (status r) (statusText r)
               (slice300 (nullish (text r) ""%string)))).
Proof.
  intros Ht Hok. unfold backoff.
  rewrite (bind_eq _ _ w w r).
  - unfold conclude. rewrite Hok. reflexivity.
  - apply retryLoop_terminal. rewrite guard_spec, Ht. reflexivity.
Qed.

Lemma axios_backoff_terminal (cfg : config) (e : env) (r : response) (w : world) :
  transient (status r) = false -> ok (status r) = false ->
  Axios.backoff cfg e r w =
  (w, Throw (SendEmailError (status r) (statusText r) (slice300 (axios_body r)))).
Proof.
  intros Ht Hok. unfold Axios.backoff.
  rewrite (bind_eq _ _ w w r).
  - unfold Axios.conclude.
    pose proof (tokenRejected_ok AxiosTransport (status r)) as H.
    rewrite Hok in H. unfold tokenRejected in H. rewrite H. reflexivity.
  - apply retryLoop_terminal. rewrite axios_guard_spec, Ht. reflexivity.
Qed.

Lemma sendEmail_unauthorized (cfg : config) (e : env) (c : caller) (m : mail)
  (w w2 : world) (tok : string) (r : response) :
  first_attempt cfg e c m w = (w2, Return (tok, r)) -> status r = 401 ->
  sendEmail cfg e c m w =
  bind (forceRefresh FetchTransport e c) (fun _ =>
  bind (getAccessToken FetchTransport cfg e c) (fun tok' =>
  bind (attempt e tok') (fun r' => backoff cfg e tok' r'))) w2.
Proof.
  intros H1 Hs. rewrite sendEmail_split, (bind_eq _ _ _ _ _ H1).
  cbn [fst snd]. unfold reauth. rewrite Hs. cbn [Z.eqb Pos.eqb].
  unfold bind.
  destruct (forceRefresh FetchTransport e c w2) as [w3 [t|err|]]; try reflexivity.
  destruct (getAccessToken FetchTransport cfg e c w3) as [w4 [t'|err|]]; try reflexivity.
  destruct (attempt e t' w4) as [w5 [r'|err|]]; reflexivity.
Qed.

Lemma axios_sendEmail_unauthorized (cfg : config) (e : env) (c : caller) (m : mail)
  (w w2 : world) (r : response) :
  axios_first_attempt cfg e c m w = (w2, Return r) -> status r = 401 ->
  Axios.sendEmail cfg e c m w =
  bind (forceRefresh AxiosTransport e c) (fun _ =>
  bind (Axios.attempt e) (Axios.backoff cfg e)) w2.
Proof.
  intros H1 Hs. rewrite axios_sendEmail_split, (bind_eq _ _ _ _ _ H1).
  unfold Axios.reauth. rewrite Hs. cbn [Z.eqb Pos.eqb].
  unfold bind.
  destruct (forceRefresh AxiosTransport e c w2) as [w3 [t|err|]]; try reflexivity.
Qed.

(** C6, as amended.  The check for 401 is made once, on the response of
    the first attempt, and before the 429/5xx loop: the call goes on with
    the forced refresh.  A 401 that reaches the loop -- from the retry
    after the refresh or from a backoff retry -- ends it at once, the call
    raises an error that carries 401, and the lines after the
    reauthentication step never refresh the credential. *)
Theorem unauthorized_checked_once (cfg : config) (e : env) (c : caller) :
  (forall m w w2 tok r,
     first_attempt cfg e c m w = (w2, Return (tok, r)) -> status r = 401 ->
     sendEmail cfg e c m w =
     bind (forceRefresh FetchTransport e c) (fun _ =>
     bind (getAccessToken FetchTransport cfg e c) (fun tok' =>
     bind (attempt e tok') (fun r' => backoff cfg e tok' r'))) w2)
  /\ (forall m w w2 r,
        axios_first_attempt cfg e c m w = (w2, Return r) -> status r = 401 ->
        Axios.sendEmail cfg e c m w =
        bind (forceRefresh AxiosTransport e c) (fun _ =>
        bind (Axios.attempt e) (Axios.backoff cfg e)) w2)
  /\ (forall a fuel k r w, status r = 401 ->
        retryLoop (guard cfg) a fuel k r w = (w, Return r) /\
        retryLoop (Axios.guard cfg) a fuel k r w = (w, Return r))
  /\ (forall tok r w, status r = 401 ->
        backoff cfg e tok r w =
        (w, Throw (SendEmailError 401 (statusText r)
                     (slice300 (nullish (text r) ""%string)))) /\
        Axios.backoff cfg e r w =
        (w, Throw (SendEmailError 401 (statusText r) (slice300 (axios_body r)))))
  /\ (forall tok r w,
        (cl (fst (backoff cfg e tok r w)) = cl w /\
         issued (fst (backoff cfg e tok r w)) = issued w) /\
        (cl (fst (Axios.backoff cfg e r w)) = cl w /\
         issued (fst (Axios.backoff cfg e r w)) = issued w)).
Proof.
  split; [|split; [|split; [|split]]].
  - intros. eapply sendEmail_unauthorized; eassumption.
  - intros. eapply axios_sendEmail_unauthorized; eassumption.
  - intros a fuel k r w Hs.
    destruct (unauthorized_not_transient r Hs) as [Ht _].
    split; apply retryLoop_terminal.
    + rewrite guard_spec, Ht. reflexivity.
    + rewrite axios_guard_spec, Ht. reflexivity.
  - intros tok r w Hs.
    destruct (unauthorized_not_transient r Hs) as [Ht Hok].
    rewrite (backoff_terminal cfg e tok r w Ht Hok),
      (axios_backoff_terminal cfg e r w Ht Hok), Hs.
    split; reflexivity.
  - intros tok r w.
    destruct (backoff_never_refreshes cfg e tok r w) as (H1 & H2 & _).
    destruct (axios_backoff_never_refreshes cfg e r w) as (H3 & H4 & _).
    auto.
Qed.

Lemma unauthorized_checked_once_witness :
  first_attempt default_config (scripted [] [401; 401]) 1%nat sample_mail (warm 1000) =
    (fst (first_attempt default_config (scripted [] [401; 401]) 1%nat sample_mail (warm 1000)),
     Return ("old"%string, mkResponse 401 "status text" (Some "body"%string) (DataString "body")))
  /\ status (mkResponse 401 "status text" (Some "body"%string) (DataString "body")) = 401
  /\ snd (sendEmail default_config (scripted [] [401; 401]) 1%nat sample_mail (warm 1000)) =
     Throw (SendEmailError 401 "status text" "body").
Proof.
  assert (H1 : first_attempt default_config (scripted [] [401; 401]) 1%nat sample_mail (warm 1000) =
    (fst (first_attempt default_config (scripted [] [401; 401]) 1%nat sample_mail (warm 1000)),
     Return ("old"%string, mkResponse 401 "status text" (Some "body"%string) (DataString "body"))))
    by (vm_compute; reflexivity).
  assert (H2 : status (mkResponse 401 "status text" (Some "body"%string) (DataString "body")) = 401)
    by reflexivity.
  split; [exact H1|]. split; [exact H2|].
  rewrite (proj1 (unauthorized_checked_once default_config (scripted [] [401; 401]) 1%nat)
             sample_mail (warm 1000) _ _ _ H1 H2).
  vm_compute. reflexivity.
Defined.

(** C6 as stated fails: a 401 that answers a backoff retry is not
    reauthenticated.  The API answers 500, then 401: the call sleeps 200,
    retries, and raises with 401 without a single token request. *)
Lemma unauthorized_in_backoff_not_reauthenticated :
  let out := sendEmail default_config (scripted [] [500; 401; 200]) 1%nat
               sample_mail (warm 1000) in
  map status (responses (log (fst out))) = [500; 401]
  /\ sleeps (log (fst out)) = [200]
  /\ token_requests (log (fst out)) = []
  /\ snd out = Throw (SendEmailError 401 "status text" "body").
Proof. vm_compute. repeat split; reflexivity. Qed.

Lemma getAccessToken_stale (v : transport) (cfg : config) (e : env) (c : caller) (w : world) :
  _mustRenew cfg (cl w) (now w) = true ->
  getAccessToken v cfg e c w = forceRefresh v e c w.
Proof.
  intros H. unfold getAccessToken, getAccessToken_call, forceRefresh. rewrite H.
  destruct (forceRefresh_call c w). reflexivity.
Qed.

Lemma getAccessToken_cached (v : transport) (cfg : config) (e : env) (c : caller) (w : world) :
  _mustRenew cfg (cl w) (now w) = false ->
  getAccessToken v cfg e c w =
  (emit [Resumed c (Return (_token (cl w)))] w, Return (_token (cl w))).
Proof.
  intros H. unfold getAccessToken, getAccessToken_call. rewrite H. reflexivity.
Qed.





(** ** No failure is returned as a value *)




Lemma updateAccessToken_settled (v : transport) (c : client) (t : Z) (o : net tokenResponse) :
  snd (_updateAccessToken v c t o) <> OutOfFuel.
Proof.
  destruct (updateAccessToken_cases v c t o)
    as [[err ->]|(r & b & a & x & _ & _ & _ & _ & ->)]; discriminate.
Qed.

Lemma post_awaitRefresh (v : transport) (e : env) (id : nat) (w : world)
  (Q : world -> string -> Prop) :
  (forall w1 tok, Q w1 tok) -> post (awaitRefresh v e id) w Q.
Proof.
  intros H. unfold post, awaitRefresh, settle.
  pose proof (updateAccessToken_settled v (cl (elapse (authTook e id) w))
                (now (elapse (authTook e id) w)) (authReply e id)) as Hs.
  destruct (_updateAccessToken v (cl (elapse (authTook e id) w))
              (now (elapse (authTook e id) w)) (authReply e id)) as [c1 [tok|err|]];
    [apply H|exact I|apply Hs; reflexivity].
Qed.


Lemma post_getAccessToken (v : transport) (cfg : config) (e : env) (c : caller) (w : world)
  (Q : world -> string -> Prop) :
  (forall w1 tok, Q w1 tok) -> post (getAccessToken v cfg e c) w Q.
Proof.
  intros H. unfold post, getAccessToken.
  destruct (getAccessToken_call cfg c w) as [w1 [tok|id]]; [apply H|].
  apply (post_awaitRefresh v e id w1 Q H).
Qed.











(** ** The two variants of [sendEmail] *)

Lemma retryLoop_ext (g1 g2 : response -> Z -> bool) (a : M response) (fuel : nat) :
  (forall r k, g1 r k = g2 r k) ->
  forall k r w, retryLoop g1 a fuel k r w = retryLoop g2 a fuel k r w.
Proof.
  intros Hg. induction fuel as [|fuel IH]; intros k r w;
    rewrite !retryLoop_unfold, Hg; destruct (g2 r k); try reflexivity.
  unfold bind. destruct (sleep (200 * 2 ^ k) w) as [w1 [[]|err|]]; try reflexivity.
  destruct (a w1) as [w2 [r2|err|]]; try reflexivity. apply IH.
Qed.

Lemma guards_agree (cfg : config) (r : response) (k : Z) :
  Axios.guard cfg r k = guard cfg r k.
Proof. rewrite axios_guard_spec, guard_spec. reflexivity. Qed.

Lemma conclude_succeeds (r : response) (w : world) :
  succeeded (snd (conclude r w)) = ok (status r)
  /\ succeeded (snd (Axios.conclude r w)) = ok (status r)
  /\ fst (conclude r w) = w /\ fst (Axios.conclude r w) = w.
Proof.
  unfold conclude, Axios.conclude.
  pose proof (tokenRejected_ok AxiosTransport (status r)) as Hr.
  unfold tokenRejected in Hr. rewrite Hr.
  destruct (ok (status r)); cbn; auto.
Qed.

Lemma backoff_on_success (cfg : config) (e : env) (tok : string) (r : response) (w : world) :
  ok (status r) = true ->
  backoff cfg e tok r w = (w, Return true) /\ Axios.backoff cfg e r w = (w, Return true).
Proof.
  intros Hok.
  assert (Ht : transient (status r) = false).
  { destruct (transient (status r)) eqn:E; [|reflexivity].
    rewrite (transient_not_ok _ E) in Hok. discriminate. }
  unfold backoff, Axios.backoff. split.
  - rewrite (bind_eq _ _ w w r).
    + unfold conclude. rewrite Hok. reflexivity.
    + apply retryLoop_terminal. rewrite guard_spec, Ht. reflexivity.
  - rewrite (bind_eq _ _ w w r).
    + unfold Axios.conclude.
      pose proof (tokenRejected_ok AxiosTransport (status r)) as Hr.
      unfold tokenRejected in Hr. rewrite Hr, Hok. reflexivity.
    + apply retryLoop_terminal. rewrite axios_guard_spec, Ht. reflexivity.
Qed.

Lemma ok_spec (s : Z) : ok s = true <-> 200 <= s <= 299.
Proof. unfold ok. rewrite andb_true_iff, !Z.leb_le. reflexivity. Qed.

(** C9, as amended.  The two variants have the same success predicate:
    each concludes with success exactly on a status in the 2xx range, and
    their loop conditions agree on every response (the test against 202
    in the axios loop is implied by the test for 429 or 5xx); so after the
    same response, with the same bearer, lines 147-168 and lines 362-387
    leave the same world and both succeed or both raise. *)
Theorem success_predicates_agree (cfg : config) (e : env) :
  (forall r w,
     succeeded (snd (conclude r w)) = ok (status r) /\
     succeeded (snd (Axios.conclude r w)) = ok (status r))
  /\ (forall r k, Axios.guard cfg r k = guard cfg r k)
  /\ (forall tok r w,
        authorization (cl w) = Some tok ->
        fst (Axios.backoff cfg e r w) = fst (backoff cfg e tok r w) /\
        succeeded (snd (Axios.backoff cfg e r w)) =
        succeeded (snd (backoff cfg e tok r w))).
Proof.
  split; [|split].
  - intros r w. destruct (conclude_succeeds r w) as (H1 & H2 & _). auto.
  - apply guards_agree.
  - intros tok r w Hh. unfold Axios.backoff, backoff, bind, attempt.
    rewrite axios_loop, Hh. cbn [nullish].
    rewrite (retryLoop_ext _ _ _ _ (guards_agree cfg)).
    destruct (retryLoop (guard cfg) (request e Submit tok) (Z.to_nat (maxRetries cfg)) 0 r w)
      as [w1 [r1|err|]]; cbn [fst snd]; auto.
    destruct (conclude_succeeds r1 w1) as (H1 & H2 & H3 & H4).
    rewrite H1, H2, H3, H4. auto.
Qed.

Lemma success_predicates_agree_witness :
  authorization (cl (warm 1000)) = Some "old"%string
  /\ succeeded (snd (Axios.backoff default_config (scripted [] [200])
                       (mkResponse 200 "OK" (Some ""%string) DataNullish) (warm 1000))) =
     succeeded (snd (backoff default_config (scripted [] [200]) "old"
                       (mkResponse 200 "OK" (Some ""%string) DataNullish) (warm 1000))).
Proof.
  assert (H : authorization (cl (warm 1000)) = Some "old"%string) by reflexivity.
  split; [exact H|].
  exact (proj2 (proj2 (proj2 (success_predicates_agree default_config (scripted [] [200])))
                  "old"%string (mkResponse 200 "OK" (Some ""%string) DataNullish)
                  (warm 1000) H)).
Defined.

(** C9 as stated fails: no status in the 2xx range, 202 or not, makes one
    variant succeed and the other raise; both return [true]. *)
Lemma no_2xx_status_separates_the_variants :
  ~ (exists (s : Z) (cfg : config) (e : env) (tok : string) (r : response) (w : world),
       200 <= s < 300 /\ s <> 202 /\ status r = s /\
       succeeded (snd (backoff cfg e tok r w)) <>
       succeeded (snd (Axios.backoff cfg e r w))).
Proof.
  intros (s & cfg & e & tok & r & w & Hs & _ & Hr & Hne).
  assert (Hok : ok (status r) = true) by (apply ok_spec; lia).
  destruct (backoff_on_success cfg e tok r w Hok) as [H1 H2].
  apply Hne. rewrite H1, H2. reflexivity.
Qed.

(** ** [ping] *)

(** C10, as amended.  Once [getAccessToken] has resolved, [ping] makes
    exactly one request, to the account endpoint; it returns [true] when
    the status is within 200..299 and [false] for any other status -- 401,
    429 and 5xx included -- without a refresh, a sleep or a second
    request; a rejected request (timeout) is raised.  When
    [getAccessToken] fails, its error is raised and no request is made. *)
Theorem ping_single_attempt (cfg : config) (e : env) (c : caller) (w : world) :
  let w1 := fst (getAccessToken FetchTransport cfg e c w) in
  match snd (getAccessToken FetchTransport cfg e c w) with
  | Return tok =>
      match apiReply e (attempts w1) Account tok with
      | Arrived r =>
          snd (ping cfg e c w) = Return (ok (status r))
          /\ (ok (status r) = true <-> 200 <= status r <= 299)
          /\ log (fst (ping cfg e c w)) = log w1 ++ [Attempt Account tok; Response r]
      | Failed f =>
          snd (ping cfg e c w) = Throw (TransportError f)
          /\ log (fst (ping cfg e c w)) = log w1 ++ [Attempt Account tok]
      end
      /\ attempts (fst (ping cfg e c w)) = S (attempts w1)
      /\ cl (fst (ping cfg e c w)) = cl w1
      /\ issued (fst (ping cfg e c w)) = issued w1
  | Throw err => ping cfg e c w = (w1, Throw err)
  | OutOfFuel => False
  end.
Proof.
  intros w1. unfold ping. cbv zeta. unfold w1. clear w1.
  pose proof (post_getAccessToken FetchTransport cfg e c w (fun _ _ => True)
                (fun _ _ => I)) as Hp.
  unfold post in Hp.
  destruct (getAccessToken FetchTransport cfg e c w) as [w1 [tok|err|]] eqn:EG;
    cbn [fst snd]; [|apply (bind_throw _ _ _ _ _ EG)|exact Hp].
  rewrite (bind_eq _ _ _ _ _ EG).
  unfold bind, request.
  destruct (apiReply e (attempts w1) Account tok) as [r|f]; cbn.
  - rewrite <- app_assoc.
    split; [split; [reflexivity|split; [apply ok_spec|reflexivity]]|].
    repeat split; reflexivity.
  - repeat split; reflexivity.
Qed.

(** C10 as stated fails: with an empty cache and a token endpoint that
    answers 503, [ping] raises the token error and makes no request to the
    API at all. *)
Lemma ping_raises_when_token_is_refused :
  let out := ping default_config (scripted [denied 503] [200]) 1%nat
               (boot fresh_client 1000) in
  attempts (fst out) = 0%nat
  /\ token_requests (log (fst out)) = [0%nat]
  /\ snd out = Throw (TokenFetchError 503 "Service Unavailable").
Proof. vm_compute. repeat split; reflexivity. Qed.

(** * Further properties of the code *)

(** ** What [sendEmail] raises *)

Lemma raises_bind {A B} (m : M A) (f : A -> M B) (E : error -> Prop) :
  raises m E -> (forall a, raises (f a) E) -> raises (bind m f) E.
Proof.
  intros Hm Hf w err. unfold bind.
  destruct (m w) as [w1 [a|e0|]] eqn:Em; cbn [snd]; intros H.
  - exact (Hf a w1 err H).
  - injection H as <-. apply (Hm w). rewrite Em. reflexivity.
  - discriminate.
Qed.

Lemma validate_cases (m : mail) (w : world) :
  (invalid m = true /\ exists msg, validate m w = (w, Throw (ValidationError msg)))
  \/ (invalid m = false /\ validate m w = (w, Return tt)).
Proof.
  unfold invalid, validate, throw, ret.
  destruct (falsy (toMail m)); [left; eauto|].
  destruct (falsy (subject m)); [left; eauto|].
  destruct (from m) as [s|]; [|left; eauto].
  destruct (falsy (email s) || falsy (name s)); [left|right]; eauto.
Qed.

Lemma raises_validate (m : mail) : raises (validate m) (sendEmail_error m).
Proof.
  intros w err H.
  destruct (validate_cases m w) as [[Hi [msg Hv]]|[_ Hv]]; rewrite Hv in H;
    [|discriminate].
  injection H as <-. exact Hi.
Qed.

Lemma updateAccessToken_raises (m : mail) (v : transport) (c : client) (t : Z)
  (o : net tokenResponse) (err : error) :
  snd (_updateAccessToken v c t o) = Throw err -> sendEmail_error m err.
Proof.
  unfold _updateAccessToken. destruct o as [r|f]; [|intros H; injection H as <-; exact I].
  rewrite tokenRejected_ok.
  destruct (ok (t_status r)) eqn:Hok; cbn [negb snd].
  - destruct (t_body r) as [|b].
    + destruct v; intros H; injection H as <-; exact I.
    + destruct (usable b) as [[a x]|]; cbn [snd]; intros H; [discriminate|].
      injection H as <-. exact I.
  - intros H; injection H as <-. exact Hok.
Qed.

Lemma raises_awaitRefresh (m : mail) (v : transport) (e : env) (id : nat) :
  raises (awaitRefresh v e id) (sendEmail_error m).
Proof.
  intros w err. unfold awaitRefresh, settle.
  pose proof (updateAccessToken_raises m v (cl (elapse (authTook e id) w))
                (now (elapse (authTook e id) w)) (authReply e id) err) as H.
  destruct (_updateAccessToken v (cl (elapse (authTook e id) w))
              (now (elapse (authTook e id) w)) (authReply e id)) as [c1 r].
  exact H.
Qed.

Lemma raises_forceRefresh (m : mail) (v : transport) (e : env) (c : caller) :
  raises (forceRefresh v e c) (sendEmail_error m).
Proof.
  intros w err. unfold forceRefresh.
  destruct (forceRefresh_call c w) as [w1 id]. apply raises_awaitRefresh.
Qed.

Lemma raises_getAccessToken (m : mail) (v : transport) (cfg : config) (e : env) (c : caller) :
  raises (getAccessToken v cfg e c) (sendEmail_error m).
Proof.
  intros w err. unfold getAccessToken.
  destruct (getAccessToken_call cfg c w) as [w1 [tok|id]]; [discriminate|].
  apply raises_awaitRefresh.
Qed.

Lemma raises_request (m : mail) (e : env) (ep : endpoint) (b : string) :
  raises (request e ep b) (sendEmail_error m).
Proof.
  intros w err. unfold request.
  destruct (apiReply e (attempts w) ep b); cbn [snd]; intros H; [discriminate|].
  injection H as <-. exact I.
Qed.

Lemma raises_retryLoop (g : response -> Z -> bool) (a : M response) (E : error -> Prop)
  (fuel : nat) :
  raises a E -> forall k r, raises (retryLoop g a fuel k r) E.
Proof.
  intros Ha. induction fuel as [|fuel IH]; intros k r w err;
    rewrite retryLoop_unfold; destruct (g r k); try discriminate.
  apply raises_bind; [intros w' err'; discriminate|]. intros _.
  apply raises_bind; [exact Ha|]. intros r'. apply IH.
Qed.

Lemma raises_conclude (m : mail) (r : response) : raises (conclude r) (sendEmail_error m).
Proof.
  intros w err. unfold conclude.
  destruct (ok (status r)) eqn:Hok; cbn [negb snd throw ret]; intros H; [discriminate|].
  injection H as <-. split; [exact Hok|apply slice300_length].
Qed.

Lemma raises_axios_conclude (m : mail) (r : response) :
  raises (Axios.conclude r) (sendEmail_error m).
Proof.
  intros w err. unfold Axios.conclude.
  pose proof (tokenRejected_ok AxiosTransport (status r)) as Hr.
  unfold tokenRejected in Hr. rewrite Hr.
  destruct (ok (status r)) eqn:Hok; cbn [negb snd throw ret]; intros H; [discriminate|].
  injection H as <-. split; [exact Hok|apply slice300_length].
Qed.

Lemma raises_sendEmail (cfg : config) (e : env) (c : caller) (m : mail) :
  raises (sendEmail cfg e c m) (sendEmail_error m).
Proof.
  unfold sendEmail. cbv zeta.
  apply raises_bind; [apply raises_validate|]. intros _.
  apply raises_bind; [apply raises_getAccessToken|]. intros tok.
  apply raises_bind; [apply raises_request|]. intros r.
  apply raises_bind.
  - unfold reauth. cbv zeta. destruct (status r =? 401); [|intros w err; discriminate].
    apply raises_bind; [apply raises_forceRefresh|]. intros _.
    apply raises_bind; [apply raises_getAccessToken|]. intros tok'.
    apply raises_bind; [apply raises_request|]. intros r' w err. discriminate.
  - intros tr. unfold backoff.
    apply raises_bind; [|apply raises_conclude].
    apply raises_retryLoop, raises_request.
Qed.

Lemma raises_axios_attempt (m : mail) (e : env) :
  raises (Axios.attempt e) (sendEmail_error m).
Proof. intros w. apply (raises_request m e Submit _ w). Qed.

Lemma raises_axios_sendEmail (cfg : config) (e : env) (c : caller) (m : mail) :
  raises (Axios.sendEmail cfg e c m) (sendEmail_error m).
Proof.
  unfold Axios.sendEmail. cbv zeta.
  apply raises_bind; [apply raises_validate|]. intros _.
  apply raises_bind; [apply raises_getAccessToken|]. intros _.
  apply raises_bind; [apply raises_axios_attempt|]. intros r.
  apply raises_bind.
  - unfold Axios.reauth. cbv zeta.
    destruct (status r =? 401); [|intros w err; discriminate].
    apply raises_bind; [apply raises_forceRefresh|]. intros _.
    apply raises_axios_attempt.
  - intros r'. unfold Axios.backoff.
    apply raises_bind; [|apply raises_axios_conclude].
    apply raises_retryLoop, raises_axios_attempt.
Qed.

(** X1.  [sendEmail], in both variants, raises a validation error exactly
    when [toMail] or [subject] is empty or [from] lacks an [email] or a
    [name]; it does so before anything else happens: no token is asked
    for, no request is sent, the client is as it was. *)
Theorem validation_comes_first (cfg : config) (e : env) (c : caller) (m : mail) (w : world) :
  (invalid m = true <->
   toMail m = ""%string \/ subject m = ""%string \/
   match from m with
   | Some s => email s = ""%string \/ name s = ""%string
   | None => True
   end)
  /\ (invalid m = true ->
      exists msg,
        sendEmail cfg e c m w = (w, Throw (ValidationError msg)) /\
        Axios.sendEmail cfg e c m w = (w, Throw (ValidationError msg)))
  /\ (forall msg,
        snd (sendEmail cfg e c m w) = Throw (ValidationError msg) \/
        snd (Axios.sendEmail cfg e c m w) = Throw (ValidationError msg) ->
        invalid m = true).
Proof.
  split; [|split].
  - unfold invalid. rewrite !orb_true_iff, !falsy_spec.
    destruct (from m) as [s|]; [rewrite orb_true_iff, !falsy_spec|]; intuition.
  - intros Hi. destruct (validate_cases m w) as [[_ [msg Hv]]|[Hn _]];
      [|rewrite Hn in Hi; discriminate].
    exists msg. unfold sendEmail, Axios.sendEmail. cbv zeta.
    rewrite !(bind_throw _ _ _ _ _ Hv). split; reflexivity.
  - intros msg [H|H].
    + exact (raises_sendEmail cfg e c m w _ H).
    + exact (raises_axios_sendEmail cfg e c m w _ H).
Qed.

Lemma validation_comes_first_witness :
  invalid (mkMail "to@example.org" "" None) = true
  /\ exists msg,
       sendEmail default_config (scripted [] []) 1%nat
         (mkMail "to@example.org" "" None) (warm 1000) =
       (warm 1000, Throw (ValidationError msg)).
Proof.
  assert (H : invalid (mkMail "to@example.org" "" None) = true) by reflexivity.
  split; [exact H|].
  destruct (proj1 (proj2 (validation_comes_first default_config (scripted [] []) 1%nat
                            (mkMail "to@example.org" "" None) (warm 1000))) H)
    as (msg & H1 & _).
  exists msg. exact H1.
Defined.

(** X2.  Whatever [sendEmail] raises, in either variant, is a validation
    error (on invalid arguments only), an error of the token acquisition
    -- a rejected request, a status outside 2xx, a body that is not JSON
    or lacks a field --, a rejected API request, or a [sendEmail error]
    whose status is outside 2xx and whose excerpt has at most 300
    characters.  It never raises the constructor's configuration error. *)
Theorem sendEmail_error_taxonomy (cfg : config) (e : env) (c : caller) (m : mail) (w : world)
  (err : error) :
  snd (sendEmail cfg e c m w) = Throw err \/
  snd (Axios.sendEmail cfg e c m w) = Throw err ->
  match err with
  | ConfigError => False
  | ValidationError _ => invalid m = true
  | TokenFetchError s _ => ~ (200 <= s <= 299)
  | SendEmailError s _ ex => ~ (200 <= s <= 299) /\ (String.length ex <= 300)%nat
  | TokenFieldsError | JsonError | TransportError _ => True
  end.
Proof.
  intros H.
  assert (He : sendEmail_error m err).
  { destruct H as [H|H];
      [exact (raises_sendEmail cfg e c m w _ H)|exact (raises_axios_sendEmail cfg e c m w _ H)]. }
  destruct err; cbn [sendEmail_error] in He; try exact He.
  - rewrite <- ok_spec. rewrite He. discriminate.
  - destruct He as [He Hl]. split; [|exact Hl]. rewrite <- ok_spec, He. discriminate.
Qed.

Lemma sendEmail_error_taxonomy_witness :
  snd (sendEmail default_config (scripted [] [404]) 1%nat sample_mail (warm 1000)) =
    Throw (SendEmailError 404 "status text" "body")
  /\ ~ (200 <= 404 <= 299).
Proof.
  assert (H : snd (sendEmail default_config (scripted [] [404]) 1%nat sample_mail (warm 1000)) =
              Throw (SendEmailError 404 "status text" "body")) by (vm_compute; reflexivity).
  split; [exact H|].
  exact (proj1 (sendEmail_error_taxonomy default_config (scripted [] [404]) 1%nat
                  sample_mail (warm 1000) _ (or_introl H))).
Defined.

(** ** The request body *)

(** X3.  The payload of the axios variant exists exactly when [from] is
    given.  It always holds the six envelope fields, with [senderAddress]
    equal to [headerFromAddress]; it holds either [text] (when a
    non-empty text is given) or [flowSelector] and [data] (otherwise),
    never both; it holds [attachments] exactly when there is at least one;
    and no key occurs twice. *)
Theorem payload_shape (J : Type) (d : J) (a : Payload.arguments J) :
  let txt := nullish (Payload.text a) ""%string in
  let atts := nullish (Payload.attachments a) [] in
  match from (Payload.envelope a) with
  | None => Payload.payload d a = None
  | Some f =>
      exists p,
        Payload.payload d a = Some p
        /\ NoDup (map fst p)
        /\ Payload.get "headerFromAddress" p = Some (Payload.Str (email f))
        /\ Payload.get "headerFromName" p = Some (Payload.Str (name f))
        /\ Payload.get "messageType" p = Some (Payload.Str "EMAIL")
        /\ Payload.get "recipientAddress" p = Some (Payload.Str (toMail (Payload.envelope a)))
        /\ Payload.get "senderAddress" p = Some (Payload.Str (email f))
        /\ Payload.get "subject" p = Some (Payload.Str (subject (Payload.envelope a)))
        /\ (if falsy txt
            then Payload.get "text" p = None
                 /\ Payload.get "flowSelector" p = Some (Payload.optional (Payload.flowSelector a))
                 /\ Payload.get "data" p = Some (Payload.Obj (nullish (Payload.data a) d))
            else Payload.get "text" p = Some (Payload.Str txt)
                 /\ Payload.get "flowSelector" p = None
                 /\ Payload.get "data" p = None)
        /\ Payload.get "attachments" p =
           match atts with [] => None | _ :: _ => Some (Payload.Arr atts) end
        /\ List.length p =
           (6 + (if falsy txt then 2 else 1) + match atts with [] => 0 | _ :: _ => 1 end)%nat
  end.
Proof.
  intros txt atts. unfold Payload.payload, Payload._buildPayload.
  fold txt. fold atts.
  destruct (from (Payload.envelope a)) as [f|]; [|reflexivity].
  destruct (falsy txt); destruct atts as [|x l]; cbn;
    (eexists; split; [reflexivity|]);
    (split; [repeat constructor; cbn; intuition discriminate|]);
    repeat split; reflexivity.
Qed.

(** X4.  For a message without text the two variants send the same
    fields: the axios payload is the fetch body in another order when
    there are attachments, and the fetch body without its
    [attachments: []] when there are none.  The fetch body never has a
    [text]. *)
Theorem payload_matches_body (J : Type) (d : J) (a : Payload.arguments J) (f : sender) :
  from (Payload.envelope a) = Some f ->
  exists b,
    Payload.body d a = Some b
    /\ Payload.get "text" b = None
    /\ (nullish (Payload.text a) ""%string = ""%string ->
        exists p,
          Payload.payload d a = Some p
          /\ match nullish (Payload.attachments a) [] with
             | [] => Permutation (p ++ [("attachments"%string, Payload.Arr [])]) b
             | _ :: _ => Permutation p b
             end).
Proof.
  intros Hf. unfold Payload.body, Payload.payload, Payload._buildPayload. rewrite Hf.
  eexists. split; [reflexivity|]. split; [reflexivity|].
  intros ->. cbn [falsy String.eqb].
  destruct (nullish (Payload.attachments a) []) as [|x l]; cbn;
    (eexists; split; [reflexivity|]);
    do 5 apply perm_skip.
  - apply perm_swap.
  - apply perm_swap.
Qed.

Lemma payload_matches_body_witness :
  from (Payload.envelope sample_arguments) =
    Some (mkSender "from@example.org" "From")
  /\ exists b, Payload.body "{}"%string sample_arguments = Some b
               /\ Payload.get "text" b = None.
Proof.
  assert (H : from (Payload.envelope sample_arguments) =
              Some (mkSender "from@example.org" "From")) by reflexivity.
  split; [exact H|].
  destruct (payload_matches_body string "{}"%string sample_arguments _ H)
    as (b & Hb & Ht & _).
  exists b. split; assumption.
Defined.

(** ** How much one call asks of the network *)

Lemma within_bind {A B} (a1 t1 a2 t2 : nat) (m : M A) (f : A -> M B) :
  within a1 t1 m -> (forall x, within a2 t2 (f x)) ->
  within (a1 + a2) (t1 + t2) (bind m f).
Proof.
  intros Hm Hf w. unfold bind. specialize (Hm w).
  destruct (m w) as [w1 [x|err|]]; cbn [fst] in *; try lia.
  specialize (Hf x w1). lia.
Qed.

Lemma within_weaken {A} (a t a' t' : nat) (m : M A) :
  (a <= a')%nat -> (t <= t')%nat -> within a t m -> within a' t' m.
Proof. intros Ha Ht H w. specialize (H w). lia. Qed.

Lemma within_validate (m : mail) : within 0 0 (validate m).
Proof.
  intros w. destruct (validate_cases m w) as [[_ [msg ->]]|[_ ->]]; cbn [fst]; lia.
Qed.

Lemma within_awaitRefresh (v : transport) (e : env) (id : nat) :
  within 0 0 (awaitRefresh v e id).
Proof.
  intros w. unfold awaitRefresh, settle.
  destruct (_updateAccessToken v (cl (elapse (authTook e id) w))
              (now (elapse (authTook e id) w)) (authReply e id)) as [c1 r].
  cbn. lia.
Qed.

Lemma within_forceRefresh (v : transport) (e : env) (c : caller) :
  within 0 1 (forceRefresh v e c).
Proof.
  intros w. unfold forceRefresh, forceRefresh_call.
  destruct (_inflightRefresh (cl w)) as [id|]; cbn [launch].
  - pose proof (within_awaitRefresh v e id (attach c id w)) as H. cbn in H. lia.
  - pose proof (within_awaitRefresh v e (issued w)
                  (attach c (issued w) (fst (launch w)))) as H.
    cbn in H. cbn [launch fst] in *. lia.
Qed.

Lemma within_getAccessToken (v : transport) (cfg : config) (e : env) (c : caller) :
  within 0 1 (getAccessToken v cfg e c).
Proof.
  intros w. destruct (_mustRenew cfg (cl w) (now w)) eqn:Hm.
  - rewrite (getAccessToken_stale v cfg e c w Hm). apply within_forceRefresh.
  - rewrite (getAccessToken_cached v cfg e c w Hm). cbn. lia.
Qed.

Lemma within_request (e : env) (ep : endpoint) (b : string) : within 1 0 (request e ep b).
Proof.
  intros w. unfold request. destruct (apiReply e (attempts w) ep b); cbn; lia.
Qed.

Lemma within_ret {A} (x : A) : within 0 0 (ret x).
Proof. intros w. cbn. lia. Qed.

Lemma within_loop (cfg : config) (e : env) (b : string) (g : response -> Z -> bool)
  (r0 : response) :
  (forall r k, g r k = transient (status r) && (k <? maxRetries cfg)) ->
  within (Z.to_nat (maxRetries cfg)) 0
         (retryLoop g (request e Submit b) (Z.to_nat (maxRetries cfg)) 0 r0).
Proof.
  intros Hg w.
  destruct (retryLoop g (request e Submit b) (Z.to_nat (maxRetries cfg)) 0 r0 w)
    as [w1 res1] eqn:E.
  apply (retryLoop_run cfg e b g Hg) in E as [seg R]; [|lia|rewrite Z.sub_0_r; lia].
  destruct R as [Rlog Rcl Ris Rpe Rwa Rat Rde Rqu Rid Rbu Rwar Rend].
  rewrite Z.sub_0_r in Rbu. cbn [fst]. lia.
Qed.

Lemma within_backoff (cfg : config) (e : env) (tok : string) (r0 : response) :
  within (Z.to_nat (maxRetries cfg)) 0 (backoff cfg e tok r0).
Proof.
  unfold backoff.
  apply (within_weaken (Z.to_nat (maxRetries cfg) + 0) (0 + 0)); [lia|lia|].
  apply within_bind; [apply (within_loop cfg e tok _ r0 (guard_spec cfg))|].
  intros r w. unfold conclude. destruct (negb (ok (status r))); cbn; lia.
Qed.

Lemma within_axios_backoff (cfg : config) (e : env) (r0 : response) :
  within (Z.to_nat (maxRetries cfg)) 0 (Axios.backoff cfg e r0).
Proof.
  unfold Axios.backoff.
  apply (within_weaken (Z.to_nat (maxRetries cfg) + 0) (0 + 0)); [lia|lia|].
  apply within_bind.
  - intros w. rewrite axios_loop. apply (within_loop cfg e _ _ r0 (axios_guard_spec cfg)).
  - intros r w. unfold Axios.conclude.
    destruct ((status r <? 200) || (300 <=? status r)); cbn; lia.
Qed.

Lemma within_axios_attempt (e : env) : within 1 0 (Axios.attempt e).
Proof. intros w. apply (within_request e Submit _ w). Qed.

(** X5.  One call of [sendEmail] sends at most [2 + maxRetries] requests
    to the API (two when [maxRetries] is zero or negative) and at most
    three token requests in the fetch variant, two in the axios variant;
    [ping] sends at most one of each. *)
Theorem requests_per_call (cfg : config) (e : env) (c : caller) (m : mail) (w : world) :
  ((attempts w <= attempts (fst (sendEmail cfg e c m w))
      <= attempts w + 2 + Z.to_nat (maxRetries cfg))%nat
   /\ (issued w <= issued (fst (sendEmail cfg e c m w)) <= issued w + 3)%nat)
  /\ ((attempts w <= attempts (fst (Axios.sendEmail cfg e c m w))
         <= attempts w + 2 + Z.to_nat (maxRetries cfg))%nat
      /\ (issued w <= issued (fst (Axios.sendEmail cfg e c m w)) <= issued w + 2)%nat)
  /\ ((attempts w <= attempts (fst (ping cfg e c w)) <= attempts w + 1)%nat
      /\ (issued w <= issued (fst (ping cfg e c w)) <= issued w + 1)%nat).
Proof.
  assert (H1 : within (0 + (0 + (1 + (1 + Z.to_nat (maxRetries cfg)))))
                      (0 + (1 + (0 + (2 + 0)))) (sendEmail cfg e c m)).
  { unfold sendEmail. cbv zeta.
    apply within_bind; [apply within_validate|]. intros _.
    apply within_bind; [apply within_getAccessToken|]. intros tok.
    apply within_bind; [apply within_request|]. intros r.
    apply within_bind; [|intros tr; apply within_backoff].
    unfold reauth. cbv zeta. destruct (status r =? 401).
    - apply (within_weaken (0 + (0 + (1 + 0))) (1 + (1 + (0 + 0)))); [lia|lia|].
      apply within_bind; [apply within_forceRefresh|]. intros _.
      apply within_bind; [apply within_getAccessToken|]. intros tok'.
      apply within_bind; [apply within_request|]. intros r'.
      apply within_ret.
    - intros w'. cbn. lia. }
  assert (H2 : within (0 + (0 + (1 + (1 + Z.to_nat (maxRetries cfg)))))
                      (0 + (1 + (0 + (1 + 0)))) (Axios.sendEmail cfg e c m)).
  { unfold Axios.sendEmail. cbv zeta.
    apply within_bind; [apply within_validate|]. intros _.
    apply within_bind; [apply within_getAccessToken|]. intros _.
    apply within_bind; [apply within_axios_attempt|]. intros r.
    apply within_bind; [|intros r'; apply within_axios_backoff].
    unfold Axios.reauth. cbv zeta. destruct (status r =? 401).
    - apply (within_weaken (0 + 1) (1 + 0)); [lia|lia|].
      apply within_bind; [apply within_forceRefresh|]. intros _.
      apply within_axios_attempt.
    - intros w'. cbn. lia. }
  assert (H3 : within (0 + (1 + 0)) (1 + (0 + 0)) (ping cfg e c)).
  { unfold ping. cbv zeta.
    apply within_bind; [apply within_getAccessToken|]. intros tok.
    apply within_bind; [apply within_request|]. intros r.
    apply within_ret. }
  specialize (H1 w). specialize (H2 w). specialize (H3 w). lia.
Qed.

(** ** How long one call sleeps *)

Lemma total_app (l1 l2 : list Z) : total (l1 ++ l2) = total l1 + total l2.
Proof.
  unfold total. induction l1 as [|x l1 IH]; cbn [app fold_right]; [reflexivity|].
  rewrite IH. lia.
Qed.

Lemma total_delays (n : nat) (k : Z) :
  0 <= k -> total (delays k n) = 200 * 2 ^ k * (2 ^ Z.of_nat n - 1).
Proof.
  revert k. induction n as [|n IH]; intros k Hk.
  - unfold delays, total. cbn. lia.
  - rewrite delays_S. unfold total in *. cbn [fold_right].
    rewrite (IH (k + 1)) by lia.
    rewrite Nat2Z.inj_succ, !Z.pow_succ_r by lia.
    rewrite Z.pow_add_r by lia. change (2 ^ 1) with 2. ring.
Qed.

Lemma sleepless_axios_attempt (e : env) : sleepless (Axios.attempt e).
Proof. intros w. apply (sleepless_request e Submit _ w). Qed.

Lemma sleepless_axios_reauth (e : env) (c : caller) (r : response) :
  sleepless (Axios.reauth e c r).
Proof.
  unfold Axios.reauth. cbv zeta. destruct (status r =? 401); [|intros w; reflexivity].
  apply sleepless_bind; [apply sleepless_forceRefresh|]. intros _.
  apply sleepless_axios_attempt.
Qed.

Lemma backs_off_axios_backoff (cfg : config) (e : env) (r0 : response) :
  backs_off cfg (Axios.backoff cfg e r0).
Proof.
  intros w. unfold Axios.backoff, bind. rewrite axios_loop.
  destruct (retryLoop (Axios.guard cfg)
              (request e Submit (nullish (authorization (cl w)) ""%string))
              (Z.to_nat (maxRetries cfg)) 0 r0 w) as [w1 res1] eqn:E.
  apply (retryLoop_run cfg e _ _ (axios_guard_spec cfg)) in E as [seg R];
    [|lia|rewrite Z.sub_0_r; lia].
  destruct R as [Rlog Rcl Ris Rpe Rwa Rat Rde Rqu Rid Rbu Rwar Rend].
  rewrite Z.sub_0_r in Rbu.
  assert (H : exists n, sleeps (log w1) = sleeps (log w) ++ delays 0 n
                        /\ Z.of_nat n <= Z.max 0 (maxRetries cfg)).
  { exists (List.length (sleeps seg)). rewrite Rlog, sleeps_app, <- Rde. auto. }
  destruct res1 as [r1|err|]; cbn [fst]; try exact H.
  unfold Axios.conclude. destruct ((status r1 <? 200) || (300 <=? status r1)); exact H.
Qed.

Lemma backs_off_axios_sendEmail (cfg : config) (e : env) (c : caller) (m : mail) :
  backs_off cfg (Axios.sendEmail cfg e c m).
Proof.
  unfold Axios.sendEmail. cbv zeta.
  apply backs_off_bind; [apply sleepless_validate|]. intros _.
  apply backs_off_bind; [apply sleepless_getAccessToken|]. intros _.
  apply backs_off_bind; [apply sleepless_axios_attempt|]. intros r.
  apply backs_off_bind; [apply sleepless_axios_reauth|]. intros r'.
  apply backs_off_axios_backoff.
Qed.

Lemma backs_off_total {A} (cfg : config) (m : M A) (w : world) :
  backs_off cfg m ->
  exists n,
    Z.of_nat n <= Z.max 0 (maxRetries cfg)
    /\ sleeps (log (fst (m w))) = sleeps (log w) ++ delays 0 n
    /\ total (sleeps (log (fst (m w)))) =
       total (sleeps (log w)) + 200 * (2 ^ Z.of_nat n - 1)
    /\ total (sleeps (log (fst (m w)))) <=
       total (sleeps (log w)) + 200 * (2 ^ Z.max 0 (maxRetries cfg) - 1).
Proof.
  intros H. destruct (H w) as (n & Hn & Hb). exists n.
  split; [exact Hb|]. split; [exact Hn|].
  rewrite Hn, total_app, total_delays by lia.
  change (2 ^ 0) with 1. split; [ring|].
  assert (2 ^ Z.of_nat n <= 2 ^ Z.max 0 (maxRetries cfg))
    by (apply Z.pow_le_mono_r; lia).
  lia.
Qed.

(** X6.  The axios variant sleeps by the same schedule as the fetch
    variant: the delays of one call are 200, 400, ..., one per retry and at
    most [maxRetries] of them.  In both variants a call therefore sleeps
    [200 * (2^n - 1)] in all for its [n] retries, never more than
    [200 * (2^maxRetries - 1)], and not at all when [maxRetries] is zero
    or negative; [ping] never sleeps. *)
Theorem sleep_per_call (cfg : config) (e : env) (c : caller) (m : mail) (w : world) :
  (exists n,
     Z.of_nat n <= Z.max 0 (maxRetries cfg)
     /\ sleeps (log (fst (Axios.sendEmail cfg e c m w))) =
        sleeps (log w) ++ map (fun k => 200 * 2 ^ Z.of_nat k) (seq 0 n)
     /\ total (sleeps (log (fst (Axios.sendEmail cfg e c m w)))) =
        total (sleeps (log w)) + 200 * (2 ^ Z.of_nat n - 1)
     /\ total (sleeps (log (fst (Axios.sendEmail cfg e c m w)))) <=
        total (sleeps (log w)) + 200 * (2 ^ Z.max 0 (maxRetries cfg) - 1))
  /\ (exists n,
        Z.of_nat n <= Z.max 0 (maxRetries cfg)
        /\ total (sleeps (log (fst (sendEmail cfg e c m w)))) =
           total (sleeps (log w)) + 200 * (2 ^ Z.of_nat n - 1)
        /\ total (sleeps (log (fst (sendEmail cfg e c m w)))) <=
           total (sleeps (log w)) + 200 * (2 ^ Z.max 0 (maxRetries cfg) - 1))
  /\ (maxRetries cfg <= 0 ->
      sleeps (log (fst (sendEmail cfg e c m w))) = sleeps (log w) /\
      sleeps (log (fst (Axios.sendEmail cfg e c m w))) = sleeps (log w))
  /\ sleeps (log (fst (ping cfg e c w))) = sleeps (log w).
Proof.
  destruct (backs_off_total cfg _ w (backs_off_axios_sendEmail cfg e c m))
    as (n & Hb & Hn & Ht & Hle).
  destruct (backs_off_total cfg _ w (backs_off_sendEmail cfg e c m))
    as (n' & Hb' & Hn' & Ht' & Hle').
  split; [exists n; auto|]. split; [exists n'; auto|]. split.
  - intros Hz. assert (n = 0%nat) by lia. assert (n' = 0%nat) by lia. subst.
    rewrite Hn, Hn'. cbn. rewrite !app_nil_r. split; reflexivity.
  - unfold ping. cbv zeta.
    apply sleepless_bind; [apply sleepless_getAccessToken|]. intros tok.
    apply sleepless_bind; [apply sleepless_request|]. intros r w'. reflexivity.
Qed.

Lemma sleep_per_call_witness :
  maxRetries (mkConfig 5000 15000 0) <= 0
  /\ sleeps (log (fst (sendEmail (mkConfig 5000 15000 0) (scripted [] [500; 500]) 1%nat
                         sample_mail (warm 1000)))) = sleeps (log (warm 1000)).
Proof.
  assert (H : maxRetries (mkConfig 5000 15000 0) <= 0) by (cbn; lia).
  split; [exact H|].
  exact (proj1 (proj1 (proj2 (proj2 (sleep_per_call (mkConfig 5000 15000 0)
                                       (scripted [] [500; 500]) 1%nat sample_mail
                                       (warm 1000)))) H)).
Defined.

(** ** No request without a bearer *)

Lemma bearers_app (l1 l2 : list obs) : bearers (l1 ++ l2) = bearers l1 ++ bearers l2.
Proof.
  induction l1 as [|x l1 IH]; [reflexivity|].
  destruct x; simpl; rewrite IH; reflexivity.
Qed.

Lemma bearers_resumed (r : completion string) (l : list (caller * nat)) :
  bearers (map (fun x => Resumed (fst x) r) l) = [].
Proof. induction l as [|x l IH]; [reflexivity|exact IH]. Qed.

Lemma authenticated_bind {A B} (P : world -> Prop) (m : M A) (Q : world -> A -> Prop)
  (f : A -> M B) (R : world -> B -> Prop) :
  authenticated P m Q ->
  (forall a, authenticated (fun w => Q w a) (f a) R) ->
  authenticated P (bind m f) R.
Proof.
  intros Hm Hf w HP. destruct (Hm w HP) as [(seg & Hlog & Hb) HQ]. unfold bind.
  destruct (m w) as [w1 [a|err|]]; cbn [fst snd] in *.
  - destruct (Hf a w1 (HQ a eq_refl)) as [(seg2 & Hlog2 & Hb2) HR].
    split; [|exact HR].
    exists (seg ++ seg2). rewrite Hlog2, Hlog, app_assoc. split; [reflexivity|].
    rewrite bearers_app. apply Forall_app. split; assumption.
  - split; [eauto|discriminate].
  - split; [eauto|discriminate].
Qed.

Lemma authenticated_weaken {A} (P P' : world -> Prop) (m : M A) (Q Q' : world -> A -> Prop) :
  (forall w, P' w -> P w) -> (forall w a, Q w a -> Q' w a) ->
  authenticated P m Q -> authenticated P' m Q'.
Proof.
  intros HP HQ H w Hw. destruct (H w (HP w Hw)) as [Hs Hr]. split; [exact Hs|].
  intros a Ha. apply HQ, Hr, Ha.
Qed.

Lemma authenticated_still {A} (P : world -> Prop) (m : M A) (x : A) :
  (forall w, m w = (w, Return x) \/ exists err, m w = (w, Throw err)) ->
  authenticated P m (fun w _ => P w).
Proof.
  intros H w HP. split.
  - exists []. rewrite app_nil_r. split; [|constructor].
    destruct (H w) as [->|[err ->]]; reflexivity.
  - intros a Ha. destruct (H w) as [E|[err E]]; rewrite E in *; [exact HP|discriminate].
Qed.

Lemma authenticated_validate (P : world -> Prop) (m : mail) :
  authenticated P (validate m) (fun w _ => P w).
Proof.
  apply (authenticated_still P _ tt). intros w.
  destruct (validate_cases m w) as [[_ [msg ->]]|[_ ->]]; eauto.
Qed.

(** What one awaited refresh leaves: nothing sent to the API; on success
    the returned token is not empty, is the cached one and, with axios, is
    the header; on failure token and header are as before. *)
Lemma awaitRefresh_effect (v : transport) (e : env) (id : nat) (w : world) :
  (exists seg, log (fst (awaitRefresh v e id w)) = log w ++ seg /\ bearers seg = [])
  /\ match snd (awaitRefresh v e id w) with
     | Return tok =>
         tok <> ""%string
         /\ _token (cl (fst (awaitRefresh v e id w))) = tok
         /\ (v = AxiosTransport ->
             authorization (cl (fst (awaitRefresh v e id w))) = Some tok)
     | _ =>
         _token (cl (fst (awaitRefresh v e id w))) = _token (cl w)
         /\ authorization (cl (fst (awaitRefresh v e id w))) = authorization (cl w)
     end.
Proof.
  unfold awaitRefresh, settle. cbn [elapse cl now log waiters].
  destruct (updateAccessToken_cases v (cl w) (now w + authTook e id) (authReply e id))
    as [[err ->]|(r & b & a & x & _ & _ & _ & Hu & ->)]; cbn [fst snd log cl].
  - split; [|cbn; auto].
    eexists. split; [reflexivity|]. cbn. apply bearers_resumed.
  - split.
    + eexists. split; [reflexivity|]. cbn. apply bearers_resumed.
    + apply usable_Some in Hu as (_ & _ & Ha & _). cbn.
      repeat split; [exact Ha|]. intros ->. reflexivity.
Qed.

Lemma forceRefresh_effect (v : transport) (e : env) (c : caller) (w : world) :
  (exists seg, log (fst (forceRefresh v e c w)) = log w ++ seg /\ bearers seg = [])
  /\ match snd (forceRefresh v e c w) with
     | Return tok =>
         tok <> ""%string
         /\ _token (cl (fst (forceRefresh v e c w))) = tok
         /\ (v = AxiosTransport ->
             authorization (cl (fst (forceRefresh v e c w))) = Some tok)
     | _ =>
         _token (cl (fst (forceRefresh v e c w))) = _token (cl w)
         /\ authorization (cl (fst (forceRefresh v e c w))) = authorization (cl w)
     end.
Proof.
  unfold forceRefresh, forceRefresh_call.
  destruct (_inflightRefresh (cl w)) as [id|]; cbn [launch].
  - exact (awaitRefresh_effect v e id (attach c id w)).
  - destruct (awaitRefresh_effect v e (issued w)
                (attach c (issued w) (fst (launch w)))) as [(seg & Hlog & Hb) H].
    cbn [launch fst] in *. split; [|exact H].
    exists (TokenRequest (issued w) :: seg). rewrite Hlog. cbn [attach log].
    rewrite <- app_assoc. split; [reflexivity|exact Hb].
Qed.

Lemma authenticated_forceRefresh (v : transport) (e : env) (c : caller) :
  authenticated (fun _ => True) (forceRefresh v e c) (fun _ tok => tok <> ""%string).
Proof.
  intros w _. destruct (forceRefresh_effect v e c w) as [(seg & Hlog & Hb) H]. split.
  - exists seg. rewrite Hb. split; [exact Hlog|constructor].
  - intros a Ha. rewrite Ha in H. apply H.
Qed.

Lemma mustRenew_false_token (cfg : config) (c : client) (t : Z) :
  _mustRenew cfg c t = false -> _token c <> ""%string.
Proof.
  unfold _mustRenew. intros H. apply orb_false_iff in H as [H _].
  apply orb_false_iff in H as [H _]. intros E. apply falsy_spec in E. congruence.
Qed.

Lemma authenticated_getAccessToken (v : transport) (cfg : config) (e : env) (c : caller) :
  authenticated (fun _ => True) (getAccessToken v cfg e c) (fun _ tok => tok <> ""%string).
Proof.
  intros w _. destruct (_mustRenew cfg (cl w) (now w)) eqn:Hm.
  - rewrite (getAccessToken_stale v cfg e c w Hm).
    exact (authenticated_forceRefresh v e c w I).
  - rewrite (getAccessToken_cached v cfg e c w Hm). cbn [fst snd]. split.
    + eexists. split; [reflexivity|]. constructor.
    + intros a Ha. injection Ha as <-. exact (mustRenew_false_token cfg _ _ Hm).
Qed.

Lemma authenticated_request (P : world -> Prop) (e : env) (ep : endpoint) (b : string) :
  b <> ""%string ->
  (forall w w', cl w' = cl w -> P w -> P w') ->
  authenticated P (request e ep b) (fun w _ => P w).
Proof.
  intros Hb Hcl w HP. unfold request.
  destruct (apiReply e (attempts w) ep b) as [r|f]; cbn [fst snd emit log]; split.
  - exists [Attempt ep b; Response r]. rewrite <- app_assoc. split; [reflexivity|].
    cbn. repeat constructor. exact Hb.
  - intros a _. apply (Hcl w); [reflexivity|exact HP].
  - exists [Attempt ep b]. split; [reflexivity|]. cbn. repeat constructor. exact Hb.
  - discriminate.
Qed.

Lemma authenticated_sleep (P : world -> Prop) (ms : Z) :
  (forall w w', cl w' = cl w -> P w -> P w') ->
  authenticated P (sleep ms) (fun w _ => P w).
Proof.
  intros Hcl w HP. unfold sleep. cbn [fst snd]. split.
  - exists [Sleep ms]. split; [reflexivity|constructor].
  - intros a _. apply (Hcl w); [reflexivity|exact HP].
Qed.

Lemma authenticated_retryLoop (P : world -> Prop) (g : response -> Z -> bool)
  (a : M response) (fuel : nat) :
  (forall w w', cl w' = cl w -> P w -> P w') ->
  authenticated P a (fun w _ => P w) ->
  forall k r, authenticated P (retryLoop g a fuel k r) (fun w _ => P w).
Proof.
  intros Hcl Ha. induction fuel as [|fuel IH]; intros k r; rewrite retryLoop_unfold;
    destruct (g r k).
  - intros w HP. cbn. split; [|discriminate].
    exists []. rewrite app_nil_r. split; [reflexivity|constructor].
  - apply (authenticated_still P _ r). intros w. left. reflexivity.
  - eapply authenticated_bind; [apply (authenticated_sleep P _ Hcl)|]. intros u.
    eapply authenticated_bind; [exact Ha|]. intros r'. apply IH.
  - apply (authenticated_still P _ r). intros w. left. reflexivity.
Qed.

Lemma authenticated_end {A} (P : world -> Prop) (m : M A) :
  (forall w, fst (m w) = w) -> authenticated P m (fun _ _ => True).
Proof.
  intros H w _. rewrite H. split; [|auto].
  exists []. rewrite app_nil_r. split; [reflexivity|constructor].
Qed.

Lemma authenticated_pure {A} (phi : Prop) (m : M A) (Q : world -> A -> Prop) :
  (phi -> authenticated (fun _ => True) m Q) -> authenticated (fun _ => phi) m Q.
Proof. intros H w Hphi. exact (H Hphi w I). Qed.

Lemma authenticated_ret {A} (P : world -> Prop) (x : A) (Q : world -> A -> Prop) :
  (forall w, P w -> Q w x) -> authenticated P (ret x) Q.
Proof.
  intros H w HP. cbn. split.
  - exists []. rewrite app_nil_r. split; [reflexivity|constructor].
  - intros a Ha. injection Ha as <-. exact (H w HP).
Qed.

Lemma authenticated_sendEmail (cfg : config) (e : env) (c : caller) (m : mail) :
  authenticated (fun _ => True) (sendEmail cfg e c m) (fun _ _ => True).
Proof.
  unfold sendEmail. cbv zeta.
  eapply authenticated_bind; [apply authenticated_validate|]. intros u.
  eapply authenticated_bind; [apply authenticated_getAccessToken|]. intros tok.
  cbv beta. apply authenticated_pure. intros Htok.
  eapply authenticated_bind;
    [apply (authenticated_request (fun _ => True)); [exact Htok|auto]|].
  intros r. cbv beta.
  eapply (authenticated_bind _ _ (fun _ tr => fst tr <> ""%string)).
  - unfold reauth. cbv zeta. destruct (status r =? 401).
    + eapply authenticated_bind; [apply authenticated_forceRefresh|]. intros t.
      cbv beta. apply authenticated_pure. intros _.
      eapply authenticated_bind; [apply authenticated_getAccessToken|]. intros tok'.
      cbv beta. apply authenticated_pure. intros Htok'.
      eapply authenticated_bind;
        [apply (authenticated_request (fun _ => True)); [exact Htok'|auto]|].
      intros r'. apply authenticated_ret. intros w _. exact Htok'.
    + apply authenticated_ret. intros w _. exact Htok.
  - intros tr. cbv beta. apply authenticated_pure. intros Htr. unfold backoff.
    eapply authenticated_bind.
    + apply (authenticated_retryLoop (fun _ => True)); [auto|].
      apply (authenticated_request (fun _ => True)); [exact Htr|auto].
    + intros r'. apply authenticated_end. intros w.
      unfold conclude. destruct (negb (ok (status r'))); reflexivity.
Qed.

Lemma holds_token_cl (w w' : world) : cl w' = cl w -> holds_token w -> holds_token w'.
Proof. unfold holds_token, synced. intros ->. auto. Qed.

Lemma authenticated_axios_forceRefresh (e : env) (c : caller) :
  authenticated (fun _ => True) (forceRefresh AxiosTransport e c)
                (fun w _ => holds_token w).
Proof.
  intros w _. destruct (forceRefresh_effect AxiosTransport e c w) as [(seg & Hlog & Hb) H].
  split.
  - exists seg. rewrite Hb. split; [exact Hlog|constructor].
  - intros a Ha. rewrite Ha in H. destruct H as (Hne & Htok & Hh).
    unfold holds_token, synced. rewrite (Hh eq_refl), Htok. split; [reflexivity|exact Hne].
Qed.

Lemma authenticated_axios_getAccessToken (cfg : config) (e : env) (c : caller) :
  authenticated synced (getAccessToken AxiosTransport cfg e c) (fun w _ => holds_token w).
Proof.
  intros w Hs. destruct (_mustRenew cfg (cl w) (now w)) eqn:Hm.
  - rewrite (getAccessToken_stale AxiosTransport cfg e c w Hm).
    exact (authenticated_axios_forceRefresh e c w I).
  - rewrite (getAccessToken_cached AxiosTransport cfg e c w Hm). cbn [fst snd]. split.
    + eexists. split; [reflexivity|]. constructor.
    + intros a _. split; [exact Hs|exact (mustRenew_false_token cfg _ _ Hm)].
Qed.

Lemma authenticated_axios_attempt (e : env) :
  authenticated holds_token (Axios.attempt e) (fun w _ => holds_token w).
Proof.
  intros w HP. unfold Axios.attempt.
  apply (authenticated_request holds_token e Submit _); [|exact holds_token_cl|exact HP].
  destruct HP as [Hs Hne]. unfold synced in Hs. rewrite Hs. exact Hne.
Qed.

Lemma authenticated_axios_sendEmail (cfg : config) (e : env) (c : caller) (m : mail) :
  authenticated synced (Axios.sendEmail cfg e c m) (fun _ _ => True).
Proof.
  unfold Axios.sendEmail. cbv zeta.
  eapply authenticated_bind; [apply authenticated_validate|]. intros u.
  eapply authenticated_bind; [apply authenticated_axios_getAccessToken|]. intros tok.
  eapply authenticated_bind; [apply authenticated_axios_attempt|]. intros r.
  eapply (authenticated_bind _ _ (fun w _ => holds_token w)).
  - unfold Axios.reauth. cbv zeta. destruct (status r =? 401).
    + eapply authenticated_bind.
      * apply (authenticated_weaken (fun _ => True) _ _
                 (fun w _ => holds_token w) (fun w _ => holds_token w));
          [auto|auto|apply authenticated_axios_forceRefresh].
      * intros t. apply authenticated_axios_attempt.
    + apply authenticated_ret. auto.
  - intros r'. unfold Axios.backoff.
    eapply authenticated_bind.
    + apply (authenticated_retryLoop holds_token);
        [exact holds_token_cl|apply authenticated_axios_attempt].
    + intros r''. apply authenticated_end. intros w.
      unfold Axios.conclude.
      destruct ((status r'' <? 200) || (300 <=? status r'')); reflexivity.
Qed.

(** X7.  No request goes to the API without a bearer: every attempt of
    [sendEmail] in the fetch variant and the request of [ping] carry a
    non-empty token, whatever the cache held and whatever the servers
    answer; so does every attempt of the axios variant, provided the
    header of its instance is the cached token when the call starts. *)
Theorem no_request_without_bearer (cfg : config) (e : env) (c : caller) (m : mail)
  (w : world) :
  (exists seg,
     log (fst (sendEmail cfg e c m w)) = log w ++ seg /\
     Forall (fun b => b <> ""%string) (bearers seg))
  /\ (exists seg,
        log (fst (ping cfg e c w)) = log w ++ seg /\
        Forall (fun b => b <> ""%string) (bearers seg))
  /\ (nullish (authorization (cl w)) ""%string = _token (cl w) ->
      exists seg,
        log (fst (Axios.sendEmail cfg e c m w)) = log w ++ seg /\
        Forall (fun b => b <> ""%string) (bearers seg)).
Proof.
  split; [|split].
  - exact (proj1 (authenticated_sendEmail cfg e c m w I)).
  - assert (H : authenticated (fun _ => True) (ping cfg e c) (fun _ _ => True)).
    { unfold ping. cbv zeta.
      eapply authenticated_bind; [apply authenticated_getAccessToken|]. intros tok.
      cbv beta. apply authenticated_pure. intros Htok.
      eapply authenticated_bind;
        [apply (authenticated_request (fun _ => True)); [exact Htok|auto]|].
      intros r. apply authenticated_ret. auto. }
    exact (proj1 (H w I)).
  - intros Hs. exact (proj1 (authenticated_axios_sendEmail cfg e c m w Hs)).
Qed.

Lemma no_request_without_bearer_witness :
  nullish (authorization (cl (boot fresh_client 1000))) ""%string =
    _token (cl (boot fresh_client 1000))
  /\ exists seg,
       log (fst (Axios.sendEmail default_config (scripted [] [401; 200]) 1%nat
                   sample_mail (boot fresh_client 1000))) =
       log (boot fresh_client 1000) ++ seg
       /\ Forall (fun b => b <> ""%string) (bearers seg).
Proof.
  assert (H : nullish (authorization (cl (boot fresh_client 1000))) ""%string =
              _token (cl (boot fresh_client 1000))) by reflexivity.
  split; [exact H|].
  exact (proj2 (proj2 (no_request_without_bearer default_config (scripted [] [401; 200])
                         1%nat sample_mail (boot fresh_client 1000))) H).
Defined.

(** ** The header of the axios instance *)

Lemma step_header (v : transport) (cfg : config) (w : world) (ev : event) :
  (authorization (cl (step v cfg w ev)) = authorization (cl w) /\
   _token (cl (step v cfg w ev)) = _token (cl w))
  \/ (exists a, a <> ""%string /\ _token (cl (step v cfg w ev)) = a /\
                authorization (cl (step v cfg w ev)) =
                match v with
                | FetchTransport => authorization (cl w)
                | AxiosTransport => Some a
                end).
Proof.
  destruct ev as [c|c|id o|d]; simpl.
  - left. unfold forceRefresh_call. destruct (_inflightRefresh (cl w)); simpl; auto.
  - left. unfold getAccessToken_call, forceRefresh_call.
    destruct (_mustRenew cfg (cl w) (now w)); [|simpl; auto].
    destruct (_inflightRefresh (cl w)); simpl; auto.
  - destruct (is_pending id w); [|auto]. unfold settle.
    destruct (updateAccessToken_cases v (cl w) (now w) o)
      as [[e ->]|(r & b & a & e & _ & _ & _ & Hu & ->)]; simpl; [auto|].
    right. exists a. apply usable_Some in Hu as (_ & _ & Ha & _).
    split; [exact Ha|]. split; [reflexivity|]. destruct v; reflexivity.
  - auto.
Qed.

(** X8.  In every state the axios client can reach, the default
    [Authorization] header of its instance is the cached token, and it is
    unset exactly while the token is empty; the fetch client never stores
    a header. *)
Theorem header_follows_token (cfg : config) (t0 : Z) (history : list event) :
  (let w := run AxiosTransport cfg (boot fresh_client t0) history in
   nullish (authorization (cl w)) ""%string = _token (cl w)
   /\ (authorization (cl w) = None <-> _token (cl w) = ""%string))
  /\ authorization (cl (run FetchTransport cfg (boot fresh_client t0) history)) = None.
Proof.
  split.
  - cbv zeta.
    assert (H : forall w,
               (authorization (cl w) = None /\ _token (cl w) = ""%string \/
                _token (cl w) <> ""%string /\ authorization (cl w) = Some (_token (cl w))) ->
               let w' := run AxiosTransport cfg w history in
               (authorization (cl w') = None /\ _token (cl w') = ""%string \/
                _token (cl w') <> ""%string /\
                authorization (cl w') = Some (_token (cl w')))).
    { induction history as [|ev evs IH]; intros w Hw; [exact Hw|].
      apply IH.
      destruct (step_header AxiosTransport cfg w ev) as [[-> ->]|(a & Ha & -> & ->)];
        [exact Hw|]. right. split; [exact Ha|reflexivity]. }
    specialize (H (boot fresh_client t0) (or_introl (conj eq_refl eq_refl))).
    cbv zeta in H. destruct H as [[Hn Ht]|[Hne Hs]].
    + rewrite Hn, Ht. split; [reflexivity|]. split; reflexivity.
    + rewrite Hs. split; [reflexivity|]. split; [discriminate|contradiction].
  - assert (H : forall w, authorization (cl w) = None ->
                authorization (cl (run FetchTransport cfg w history)) = None).
    { induction history as [|ev evs IH]; intros w Hw; [exact Hw|].
      apply IH.
      destruct (step_header FetchTransport cfg w ev) as [[-> _]|(a & _ & _ & ->)];
        exact Hw. }
    apply H. reflexivity.
Qed.

(** ** Callers and their outcomes *)











(** X11.  A client that was just built is stale at every instant.  After
    an accepted token response at time [T] with lifetime [e],
    [getAccessToken] at time [t] answers from the cache exactly when
    [t + graceMs < T + e * 1000] (and that expiry is not zero): the token
    is served for [e * 1000 - graceMs] and refreshed from then on. *)
Theorem cache_window (v : transport) (cfg : config) (c : client) (T : Z)
  (b : tokenBody) (a : string) (e : Z) :
  usable b = Some (a, e) ->
  (forall t, _mustRenew cfg fresh_client t = true)
  /\ (forall t,
        _mustRenew cfg (store v c T a e) t = false <->
        T + e * 1000 <> 0 /\ t + graceMs cfg < T + e * 1000)
  /\ (forall who w,
        cl w = store v c T a e ->
        (snd (getAccessToken_call cfg who w) = Ready a <->
         T + e * 1000 <> 0 /\ now w + graceMs cfg < T + e * 1000)).
Proof.
  intros Hu. apply usable_Some in Hu as (_ & _ & Ha & _).
  assert (Hwin : forall t,
             _mustRenew cfg (store v c T a e) t = false <->
             T + e * 1000 <> 0 /\ t + graceMs cfg < T + e * 1000).
  { intros t. unfold _mustRenew, store. cbn [_token _expiresAt].
    rewrite !orb_false_iff, Z.eqb_neq, Z.leb_gt.
    assert (Hf : falsy a = false).
    { destruct (falsy a) eqn:E; [|reflexivity]. apply falsy_spec in E. contradiction. }
    rewrite Hf. intuition lia. }
  split; [intros t; reflexivity|]. split; [exact Hwin|].
  intros who w Hcl. rewrite <- (Hwin (now w)), <- Hcl.
  unfold getAccessToken_call.
  destruct (_mustRenew cfg (cl w) (now w)) eqn:Hm.
  - destruct (forceRefresh_call who w). cbn [snd]. split; discriminate.
  - cbn [snd]. rewrite Hcl. cbn [store _token]. split; reflexivity.
Qed.

Lemma cache_window_witness :
  usable (mkTokenBody (Some "abc"%string) (Some 3600)) = Some ("abc"%string, 3600)
  /\ (_mustRenew default_config (store FetchTransport fresh_client 0 "abc" 3600) 10000 = false <->
      0 + 3600 * 1000 <> 0 /\ 10000 + graceMs default_config < 0 + 3600 * 1000).
Proof.
  assert (H : usable (mkTokenBody (Some "abc"%string) (Some 3600)) =
              Some ("abc"%string, 3600)) by reflexivity.
  split; [exact H|].
  exact (proj1 (proj2 (cache_window FetchTransport default_config fresh_client 0
                         (mkTokenBody (Some "abc"%string) (Some 3600))
                         "abc"%string 3600 H)) 10000).
Defined.

(** ** Servers that always answer alike *)

Lemma loop_exhausts (cfg : config) (e : env) (b : string) (fuel : nat) :
  (forall j, exists r, apiReply e j Submit b = Arrived r /\ transient (status r) = true) ->
  forall k r0 w,
    0 <= k -> Z.of_nat fuel = maxRetries cfg - k ->
    transient (status r0) = true ->
    exists w' r,
      retryLoop (guard cfg) (request e Submit b) fuel k r0 w = (w', Return r)
      /\ transient (status r) = true
      /\ (fuel = 0%nat -> r = r0)
      /\ (fuel <> 0%nat ->
          apiReply e (attempts w + fuel - 1) Submit b = Arrived r)
      /\ attempts w' = (attempts w + fuel)%nat
      /\ issued w' = issued w
      /\ cl w' = cl w
      /\ sleeps (log w') = sleeps (log w) ++ delays k fuel.
Proof.
  intros Hall. induction fuel as [|fuel IH]; intros k r0 w Hk Hf Ht;
    rewrite retryLoop_unfold, guard_spec, Ht; cbn [andb].
  - destruct (Z.ltb_spec k (maxRetries cfg)) as [Hlt|Hge]; [lia|].
    exists w, r0. cbn. rewrite app_nil_r, Nat.add_0_r.
    repeat split; try reflexivity; try exact Ht. intros H; contradiction.
  - destruct (Z.ltb_spec k (maxRetries cfg)) as [Hlt|Hge]; [|lia].
    unfold bind at 1. unfold sleep. unfold bind at 1. unfold request.
    cbn [attempts emit elapse cl now pending waiters issued log].
    destruct (Hall (attempts w)) as (r1 & Hr1 & Ht1). rewrite Hr1.
    match goal with
    | |- exists _ _, retryLoop _ _ _ ?k1 ?rr ?w1 = _ /\ _ =>
        destruct (IH k1 rr w1) as (w' & r' & Hrun & Htr & H0 & Hlast & Hat & His & Hcl & Hsl);
          [lia|lia|exact Ht1|]
    end.
    exists w', r'. cbn [attempts emit elapse cl now pending waiters issued log] in *.
    split; [exact Hrun|]. split; [exact Htr|]. split; [discriminate|].
    split.
    { intros _. destruct fuel as [|fuel'].
      - rewrite (H0 eq_refl). rewrite <- Hr1. f_equal. lia.
      - rewrite <- (Hlast ltac:(discriminate)). f_equal. lia. }
    split; [lia|]. split; [exact His|]. split; [exact Hcl|].
    rewrite Hsl, !sleeps_app, delays_S. cbn [sleeps app].
    rewrite <- !app_assoc. reflexivity.
Qed.

(** X12.  When the token is obtained and the API answers every attempt
    with 429 or a status from 500 on, [sendEmail] makes exactly
    [1 + maxRetries] attempts with the delays 200, 400, ... between them,
    asks for no other token, and raises the error of the last answer. *)
Theorem persistent_failure_exhausts_retries
  (cfg : config) (e : env) (c : caller) (m : mail) (w w1 : world) (tok : string) :
  0 <= maxRetries cfg ->
  invalid m = false ->
  getAccessToken FetchTransport cfg e c w = (w1, Return tok) ->
  (forall j, exists r, apiReply e j Submit tok = Arrived r /\ transient (status r) = true) ->
  exists r,
    apiReply e (attempts w1 + Z.to_nat (maxRetries cfg)) Submit tok = Arrived r
    /\ snd (sendEmail cfg e c m w) =
       Throw (SendEmailError (status r) (statusText r)
                (slice300 (nullish (text r) ""%string)))
    /\ attempts (fst (sendEmail cfg e c m w)) =
       (attempts w1 + 1 + Z.to_nat (maxRetries cfg))%nat
    /\ issued (fst (sendEmail cfg e c m w)) = issued w1
    /\ sleeps (log (fst (sendEmail cfg e c m w))) =
       sleeps (log w1) ++ map (fun k => 200 * 2 ^ Z.of_nat k)
                              (seq 0 (Z.to_nat (maxRetries cfg))).
Proof.
  intros Hmax Hv Hg Hall.
  destruct (validate_cases m w) as [[Hi _]|[_ Hval]]; [congruence|].
  destruct (Hall (attempts w1)) as (r0 & Hr0 & Ht0).
  assert (H401 : (status r0 =? 401) = false).
  { apply Z.eqb_neq. intros E. rewrite E in Ht0. discriminate. }
  destruct (attempt e tok w1) as [W0 res0] eqn:Hatt.
  unfold attempt, request in Hatt. rewrite Hr0 in Hatt. injection Hatt as HW0 Hres0.
  assert (Hatt : attempt e tok w1 = (W0, Return r0)).
  { unfold attempt, request. rewrite Hr0, HW0. reflexivity. }
  assert (Hre : reauth cfg e c tok r0 W0 = (W0, Return (tok, r0))).
  { unfold reauth. cbv zeta. rewrite H401. reflexivity. }
  destruct (loop_exhausts cfg e tok (Z.to_nat (maxRetries cfg)) Hall 0 r0 W0)
    as (w' & r' & Hrun & Htr & H0 & Hlast & Hat & His & Hcl & Hsl);
    [lia|lia|exact Ht0|].
  assert (Heq : sendEmail cfg e c m w =
                (w', Throw (SendEmailError (status r') (statusText r')
                              (slice300 (nullish (text r') ""%string))))).
  { unfold sendEmail. cbv zeta.
    rewrite (bind_eq _ _ _ _ _ Hval), (bind_eq _ _ _ _ _ Hg), (bind_eq _ _ _ _ _ Hatt),
      (bind_eq _ _ _ _ _ Hre).
    cbn [fst snd]. unfold backoff, attempt. rewrite (bind_eq _ _ _ _ _ Hrun).
    unfold conclude. rewrite (transient_not_ok _ Htr). reflexivity. }
  rewrite Heq. cbn [fst snd].
  assert (HaW : attempts W0 = S (attempts w1)) by (rewrite <- HW0; reflexivity).
  assert (HiW : issued W0 = issued w1) by (rewrite <- HW0; reflexivity).
  assert (HsW : sleeps (log W0) = sleeps (log w1)).
  { rewrite <- HW0. cbn [emit log]. rewrite !sleeps_app. cbn. rewrite !app_nil_r.
    reflexivity. }
  exists r'. split.
  { destruct (Z.to_nat (maxRetries cfg)) as [|n] eqn:En.
    - rewrite (H0 eq_refl), Nat.add_0_r. exact Hr0.
    - rewrite <- (Hlast ltac:(discriminate)). f_equal. lia. }
  split; [reflexivity|]. split; [lia|]. split; [congruence|].
  rewrite Hsl, HsW. reflexivity.
Qed.

Lemma persistent_failure_exhausts_retries_witness :
  0 <= maxRetries default_config
  /\ invalid sample_mail = false
  /\ getAccessToken FetchTransport default_config
       (mkEnv (fun _ => granted "tok" 3600) (fun _ => 10) (fun _ _ _ => replied 503)
              (fun _ => 10)) 1%nat (warm 1000) =
     (fst (getAccessToken FetchTransport default_config
             (mkEnv (fun _ => granted "tok" 3600) (fun _ => 10) (fun _ _ _ => replied 503)
                    (fun _ => 10)) 1%nat (warm 1000)), Return "old"%string)
  /\ attempts (fst (sendEmail default_config
                      (mkEnv (fun _ => granted "tok" 3600) (fun _ => 10)
                             (fun _ _ _ => replied 503) (fun _ => 10))
                      1%nat sample_mail (warm 1000))) = 3%nat.
Proof.
  assert (H1 : 0 <= maxRetries default_config) by (cbn; lia).
  assert (H2 : invalid sample_mail = false) by reflexivity.
  assert (H3 : getAccessToken FetchTransport default_config
       (mkEnv (fun _ => granted "tok" 3600) (fun _ => 10) (fun _ _ _ => replied 503)
              (fun _ => 10)) 1%nat (warm 1000) =
     (fst (getAccessToken FetchTransport default_config
             (mkEnv (fun _ => granted "tok" 3600) (fun _ => 10) (fun _ _ _ => replied 503)
                    (fun _ => 10)) 1%nat (warm 1000)), Return "old"%string))
    by reflexivity.
  assert (H4 : forall j, exists r,
             apiReply (mkEnv (fun _ => granted "tok" 3600) (fun _ => 10)
                             (fun _ _ _ => replied 503) (fun _ => 10)) j Submit "old" =
             Arrived r /\ transient (status r) = true).
  { intros j. eexists. split; reflexivity. }
  split; [exact H1|]. split; [exact H2|]. split; [exact H3|].
  destruct (persistent_failure_exhausts_retries default_config _ 1%nat sample_mail
              (warm 1000) _ "old"%string H1 H2 H3 H4) as (r & _ & _ & Hat & _).
  exact Hat.
Defined.

(** X13.  When the token is obtained and the first attempt is answered
    with a status in the 2xx range, [sendEmail] returns [true] after that
    single attempt, in both variants: it does not sleep, does not ask for
    another token and leaves the client as the token acquisition left
    it. *)
Theorem first_success_ends_the_call
  (cfg : config) (e : env) (c : caller) (m : mail) (w w1 : world) (tok : string)
  (r : response) :
  invalid m = false ->
  ok (status r) = true ->
  (getAccessToken FetchTransport cfg e c w = (w1, Return tok) ->
   apiReply e (attempts w1) Submit tok = Arrived r ->
   snd (sendEmail cfg e c m w) = Return true
   /\ log (fst (sendEmail cfg e c m w)) = log w1 ++ [Attempt Submit tok; Response r]
   /\ attempts (fst (sendEmail cfg e c m w)) = S (attempts w1)
   /\ issued (fst (sendEmail cfg e c m w)) = issued w1
   /\ cl (fst (sendEmail cfg e c m w)) = cl w1)
  /\ (getAccessToken AxiosTransport cfg e c w = (w1, Return tok) ->
      apiReply e (attempts w1) Submit (nullish (authorization (cl w1)) ""%string) =
        Arrived r ->
      snd (Axios.sendEmail cfg e c m w) = Return true
      /\ log (fst (Axios.sendEmail cfg e c m w)) =
         log w1 ++ [Attempt Submit (nullish (authorization (cl w1)) ""%string); Response r]
      /\ attempts (fst (Axios.sendEmail cfg e c m w)) = S (attempts w1)
      /\ issued (fst (Axios.sendEmail cfg e c m w)) = issued w1
      /\ cl (fst (Axios.sendEmail cfg e c m w)) = cl w1).
Proof.
  intros Hv Hok.
  destruct (validate_cases m w) as [[Hi _]|[_ Hval]]; [congruence|].
  assert (H401 : (status r =? 401) = false).
  { apply Z.eqb_neq. intros E. rewrite E in Hok. discriminate. }
  split; intros Hg Hr.
  - assert (Hatt : attempt e tok w1 =
                   (emit [Response r]
                      (mkWorld (cl w1) (now w1 + apiTook e (attempts w1)) (pending w1)
                         (waiters w1) (issued w1) (S (attempts w1))
                         (log w1 ++ [Attempt Submit tok])), Return r)).
    { unfold attempt, request. rewrite Hr. reflexivity. }
    assert (Heq : sendEmail cfg e c m w =
                  (emit [Response r]
                     (mkWorld (cl w1) (now w1 + apiTook e (attempts w1)) (pending w1)
                        (waiters w1) (issued w1) (S (attempts w1))
                        (log w1 ++ [Attempt Submit tok])), Return true)).
    { unfold sendEmail. cbv zeta.
      rewrite (bind_eq _ _ _ _ _ Hval), (bind_eq _ _ _ _ _ Hg), (bind_eq _ _ _ _ _ Hatt).
      unfold reauth. cbv zeta. rewrite H401. unfold bind at 1. unfold ret at 1.
      cbn [fst snd]. exact (proj1 (backoff_on_success cfg e tok r _ Hok)). }
    rewrite Heq. cbn. rewrite <- app_assoc. repeat split; reflexivity.
  - assert (Hatt : Axios.attempt e w1 =
                   (emit [Response r]
                      (mkWorld (cl w1) (now w1 + apiTook e (attempts w1)) (pending w1)
                         (waiters w1) (issued w1) (S (attempts w1))
                         (log w1 ++ [Attempt Submit
                                       (nullish (authorization (cl w1)) ""%string)])),
                    Return r)).
    { unfold Axios.attempt, request. rewrite Hr. reflexivity. }
    assert (Heq : Axios.sendEmail cfg e c m w =
                  (emit [Response r]
                     (mkWorld (cl w1) (now w1 + apiTook e (attempts w1)) (pending w1)
                        (waiters w1) (issued w1) (S (attempts w1))
                        (log w1 ++ [Attempt Submit
                                      (nullish (authorization (cl w1)) ""%string)])),
                   Return true)).
    { unfold Axios.sendEmail. cbv zeta.
      rewrite (bind_eq _ _ _ _ _ Hval), (bind_eq _ _ _ _ _ Hg), (bind_eq _ _ _ _ _ Hatt).
      unfold Axios.reauth. cbv zeta. rewrite H401. unfold bind at 1. unfold ret at 1.
      exact (proj2 (backoff_on_success cfg e tok r _ Hok)). }
    rewrite Heq. cbn. rewrite <- app_assoc. repeat split; reflexivity.
Qed.

Lemma first_success_ends_the_call_witness :
  invalid sample_mail = false
  /\ ok (status (mkResponse 202 "status text" (Some "body"%string) (DataString "body"))) = true
  /\ snd (sendEmail default_config (scripted [] [202]) 1%nat sample_mail (warm 1000)) =
     Return true.
Proof.
  assert (H1 : invalid sample_mail = false) by reflexivity.
  assert (H2 : ok (status (mkResponse 202 "status text" (Some "body"%string)
                             (DataString "body"))) = true) by reflexivity.
  split; [exact H1|]. split; [exact H2|].
  exact (proj1 (proj1 (first_success_ends_the_call default_config (scripted [] [202]) 1%nat
                         sample_mail (warm 1000)
                         (fst (getAccessToken FetchTransport default_config
                                 (scripted [] [202]) 1%nat (warm 1000)))
                         "old"%string _ H1 H2) eq_refl eq_refl)).
Defined.

(** ** The two variants of the token acquisition *)



(** ** What a call leaves behind *)

Lemma keeps_bind {A B} (I : world -> Prop) (m : M A) (f : A -> M B) :
  keeps I m -> (forall a, keeps I (f a)) -> keeps I (bind m f).
Proof.
  intros Hm Hf w HI. unfold bind. specialize (Hm w HI).
  destruct (m w) as [w1 [a|err|]]; cbn [fst] in *; [|exact Hm|exact Hm].
  exact (Hf a w1 Hm).
Qed.

Lemma keeps_validate (I : world -> Prop) (m : mail) : keeps I (validate m).
Proof.
  intros w HI. destruct (validate_cases m w) as [[_ [msg ->]]|[_ ->]]; exact HI.
Qed.

Lemma quiescent_coherent (w : world) : quiescent w -> coherent w.
Proof. intros (E & Hp & Hw). unfold coherent. rewrite E. auto. Qed.

Lemma keeps_forceRefresh (v : transport) (e : env) (c : caller) :
  keeps quiescent (forceRefresh v e c).
Proof.
  intros w Hq. pose proof (quiescent_coherent w Hq) as Hc.
  destruct Hq as (E & Hp & Hw).
  unfold forceRefresh, forceRefresh_call. rewrite E. cbn [launch].
  unfold awaitRefresh.
  match goal with
  | |- quiescent (fst (settle ?v ?id ?o ?w0)) =>
      assert (Hc0 : coherent w0);
        [|rewrite (settle_inflight v id o w0 Hc0 eq_refl)]
  end.
  - unfold coherent. cbn. rewrite Hp, Hw. cbn. repeat constructor.
  - cbn. repeat split.
Qed.

Lemma keeps_getAccessToken (v : transport) (cfg : config) (e : env) (c : caller) :
  keeps quiescent (getAccessToken v cfg e c).
Proof.
  intros w Hq. destruct (_mustRenew cfg (cl w) (now w)) eqn:Hm.
  - rewrite (getAccessToken_stale v cfg e c w Hm). exact (keeps_forceRefresh v e c w Hq).
  - rewrite (getAccessToken_cached v cfg e c w Hm). exact Hq.
Qed.

Lemma keeps_request (e : env) (ep : endpoint) (b : string) :
  keeps quiescent (request e ep b).
Proof.
  intros w Hq. unfold request.
  destruct (apiReply e (attempts w) ep b); exact Hq.
Qed.

Lemma keeps_retryLoop (I : world -> Prop) (g : response -> Z -> bool) (a : M response)
  (fuel : nat) :
  (forall ms, keeps I (sleep ms)) -> keeps I a ->
  forall k r, keeps I (retryLoop g a fuel k r).
Proof.
  intros Hs Ha. induction fuel as [|fuel IH]; intros k r; rewrite retryLoop_unfold;
    destruct (g r k); try (intros w HI; exact HI).
  apply keeps_bind; [apply Hs|]. intros u.
  apply keeps_bind; [exact Ha|]. intros r'. apply IH.
Qed.

Lemma keeps_sleep (ms : Z) : keeps quiescent (sleep ms).
Proof. intros w Hq. exact Hq. Qed.

(** X15.  A call leaves no refresh behind: started while no refresh is in
    flight, [sendEmail] (either variant) and [ping] end -- with a value,
    an API error, a token error or a rejected request -- in a state where
    the marker is cleared, no token request is on the wire and no caller
    waits. *)
Theorem call_leaves_no_refresh_behind
  (cfg : config) (e : env) (c : caller) (m : mail) (w : world) :
  _inflightRefresh (cl w) = None -> pending w = [] -> waiters w = [] ->
  quiescent (fst (sendEmail cfg e c m w))
  /\ quiescent (fst (Axios.sendEmail cfg e c m w))
  /\ quiescent (fst (ping cfg e c w)).
Proof.
  intros E Hp Hw. assert (Hq : quiescent w) by (repeat split; assumption).
  split; [|split].
  - revert w Hq E Hp Hw. intros w Hq _ _ _. revert w Hq.
    change (keeps quiescent (sendEmail cfg e c m)).
    unfold sendEmail. cbv zeta.
    apply keeps_bind; [apply keeps_validate|]. intros u.
    apply keeps_bind; [apply keeps_getAccessToken|]. intros tok.
    apply keeps_bind; [apply keeps_request|]. intros r.
    apply keeps_bind.
    + unfold reauth. cbv zeta. destruct (status r =? 401); [|intros w Hq; exact Hq].
      apply keeps_bind; [apply keeps_forceRefresh|]. intros t.
      apply keeps_bind; [apply keeps_getAccessToken|]. intros tok'.
      apply keeps_bind; [apply keeps_request|]. intros r' w Hq. exact Hq.
    + intros tr. unfold backoff.
      apply keeps_bind.
      * apply keeps_retryLoop; [apply keeps_sleep|apply keeps_request].
      * intros r' w Hq. unfold conclude. destruct (negb (ok (status r'))); exact Hq.
  - revert w Hq E Hp Hw. intros w Hq _ _ _. revert w Hq.
    change (keeps quiescent (Axios.sendEmail cfg e c m)).
    unfold Axios.sendEmail. cbv zeta.
    apply keeps_bind; [apply keeps_validate|]. intros u.
    apply keeps_bind; [apply keeps_getAccessToken|]. intros tok.
    apply keeps_bind; [intros w Hq; apply (keeps_request e Submit _ w Hq)|]. intros r.
    apply keeps_bind.
    + unfold Axios.reauth. cbv zeta. destruct (status r =? 401); [|intros w Hq; exact Hq].
      apply keeps_bind; [apply keeps_forceRefresh|]. intros t.
      intros w Hq. apply (keeps_request e Submit _ w Hq).
    + intros r'. unfold Axios.backoff.
      apply keeps_bind.
      * apply keeps_retryLoop; [apply keeps_sleep|].
        intros w Hq. apply (keeps_request e Submit _ w Hq).
      * intros r'' w Hq. unfold Axios.conclude.
        destruct ((status r'' <? 200) || (300 <=? status r'')); exact Hq.
  - revert w Hq E Hp Hw. intros w Hq _ _ _. revert w Hq.
    change (keeps quiescent (ping cfg e c)).
    unfold ping. cbv zeta.
    apply keeps_bind; [apply keeps_getAccessToken|]. intros tok.
    apply keeps_bind; [apply keeps_request|]. intros r w Hq. exact Hq.
Qed.

Lemma call_leaves_no_refresh_behind_witness :
  _inflightRefresh (cl (boot fresh_client 1000)) = None
  /\ pending (boot fresh_client 1000) = []
  /\ waiters (boot fresh_client 1000) = []
  /\ quiescent (fst (sendEmail default_config (scripted [denied 503] [200]) 1%nat
                       sample_mail (boot fresh_client 1000))).
Proof.
  split; [reflexivity|]. split; [reflexivity|]. split; [reflexivity|].
  exact (proj1 (call_leaves_no_refresh_behind default_config (scripted [denied 503] [200])
                  1%nat sample_mail (boot fresh_client 1000) eq_refl eq_refl eq_refl)).
Defined.

(** ** The tokens that are handed out and sent *)

Lemma step_sound (v : transport) (cfg : config) (w : world) (ev : event) :
  Forall sound_outcome (log w) -> Forall sound_outcome (log (step v cfg w ev)).
Proof.
  intros H. destruct ev as [c|c|id o|d]; simpl.
  - unfold forceRefresh_call. destruct (_inflightRefresh (cl w)); simpl; [exact H|].
    apply Forall_app. split; [exact H|]. repeat constructor.
  - unfold getAccessToken_call, forceRefresh_call.
    destruct (_mustRenew cfg (cl w) (now w)) eqn:Hm.
    + destruct (_inflightRefresh (cl w)); simpl; [exact H|].
      apply Forall_app. split; [exact H|]. repeat constructor.
    + simpl. apply Forall_app. split; [exact H|]. repeat constructor.
      exact (mustRenew_false_token cfg _ _ Hm).
  - destruct (is_pending id w); [|exact H]. unfold settle.
    destruct (updateAccessToken_cases v (cl w) (now w) o)
      as [[e ->]|(r & b & a & e & _ & _ & _ & Hu & ->)]; simpl;
      apply Forall_app; (split; [exact H|]); constructor; try exact I;
      apply Forall_map, Forall_forall; intros x _; simpl; try exact I.
    apply usable_Some in Hu as (_ & _ & Ha & _). exact Ha.
  - exact H.
Qed.

(** X16.  No caller is ever handed an empty token: in every state the
    client can reach, each outcome given to a caller of [getAccessToken]
    or [forceRefresh] is an error or a non-empty token. *)
Theorem no_empty_token_is_handed_out
  (v : transport) (cfg : config) (t0 : Z) (history : list event) (c : caller)
  (tok : string) :
  In (Resumed c (Return tok)) (log (run v cfg (boot fresh_client t0) history)) ->
  tok <> ""%string.
Proof.
  assert (H : forall w, Forall sound_outcome (log w) ->
                        Forall sound_outcome (log (run v cfg w history))).
  { induction history as [|ev evs IH]; intros w Hw; [exact Hw|].
    apply IH, step_sound, Hw. }
  specialize (H (boot fresh_client t0) (Forall_nil _)).
  intros Hin. rewrite Forall_forall in H. exact (H _ Hin).
Qed.

Lemma no_empty_token_is_handed_out_witness :
  In (Resumed 1%nat (Return "abc"%string))
     (log (run FetchTransport default_config (boot fresh_client 1000)
             [CallGetAccessToken 1%nat; Settle 0%nat (granted "abc" 3600)]))
  /\ "abc"%string <> ""%string.
Proof.
  assert (H : In (Resumed 1%nat (Return "abc"%string))
                (log (run FetchTransport default_config (boot fresh_client 1000)
                        [CallGetAccessToken 1%nat; Settle 0%nat (granted "abc" 3600)]))).
  { cbn. right. right. left. reflexivity. }
  split; [exact H|].
  exact (no_empty_token_is_handed_out FetchTransport default_config 1000 _ _ _ H).
Defined.


